(** * Season standings tracker: a shallow embedding and its properties

    The program keeps three name-keyed dictionaries (drivers, teams, races)
    of mutable objects.  [Driver] and [Team] objects are shared: a driver is
    referenced from [drivers_dict], from its team's roster and from race
    results, and a team from [teams_dict] and from each of its drivers.  They
    therefore live in two heaps (lists indexed by reference); a reference is
    the allocation number of the object.  A [Race] is referenced from
    [race_dict] only and a [RaceResult] from one race only, so both are kept
    by value.

    The functions below are the bodies of the input loops of [add_driver],
    [add_race] and [record_race_result], taking the fields of one input line
    after [split] and [strip], and the two display functions, returning what
    they print as the sequence of objects printed.  The champion lookups and
    the scraper do not touch the registry. *)

From Stdlib Require Import ZArith Ascii String.
From stdpp Require Import base list strings sorting pretty.

Local Open Scope string_scope.
Local Open Scope Z_scope.
Local Open Scope list_scope.

(** ** Python dictionaries

    A [dict] keeps its keys in insertion order; assigning to a key that is
    present replaces the value and keeps the key's slot. *)

Section dict.
Context {K V : Type} `{EqDecision K}.

Definition dict := list (K * V).

Fixpoint dict_get (k : K) (d : dict) : option V :=
  match d with
  | [] => None
  | (k', v) :: d' => if decide (k' = k) then Some v else dict_get k d'
  end.

Fixpoint dict_set (k : K) (v : V) (d : dict) : dict :=
  match d with
  | [] => [(k, v)]
  | (k', v') :: d' =>
      if decide (k' = k) then (k, v) :: d' else (k', v') :: dict_set k v d'
  end.

Definition dict_keys (d : dict) : list K := d.*1.
Definition dict_values (d : dict) : list V := d.*2.
End dict.

Arguments dict : clear implicits.

(** ** [int(s)] on ASCII text

    Surrounding whitespace is dropped, one sign is allowed, and the digits
    may be grouped by single underscores.  [None] stands for [ValueError].
    (The interpreter's cap on the number of digits is left out.) *)

Definition is_space (a : ascii) : bool :=
  let n := Z.of_N (N_of_ascii a) in
  ((9 <=? n) && (n <=? 13)) || ((28 <=? n) && (n <=? 32)).

Definition digit_of (a : ascii) : option Z :=
  let n := Z.of_N (N_of_ascii a) in
  if (48 <=? n) && (n <=? 57) then Some (n - 48) else None.

Fixpoint parse_digits (acc : Z) (after_digit : bool) (s : list ascii)
  : option Z :=
  match s with
  | [] => if after_digit then Some acc else None
  | a :: s' =>
      match digit_of a with
      | Some d => parse_digits (10 * acc + d) true s'
      | None =>
          if bool_decide (a = "_"%char) && after_digit
          then parse_digits acc false s'
          else None
      end
  end.

Fixpoint lstrip (s : list ascii) : list ascii :=
  match s with
  | a :: s' => if is_space a then lstrip s' else s
  | [] => []
  end.

Definition strip (s : list ascii) : list ascii :=
  reverse (lstrip (reverse (lstrip s))).

Definition py_int (s : string) : option Z :=
  match strip (list_ascii_of_string s) with
  | a :: s' =>
      if bool_decide (a = "-"%char) then Z.opp <$> parse_digits 0 false s'
      else if bool_decide (a = "+"%char) then parse_digits 0 false s'
      else parse_digits 0 false (a :: s')
  | [] => None
  end.

(** ** Entities *)

(** References are allocation numbers. *)
Abbreviation driver_ref := nat (only parsing).
Abbreviation team_ref := nat (only parsing).

Record Driver := mkDriver {
  driver_name : string;
  driver_team : team_ref;
  driver_points : Z;
  driver_position : option Z
}.

Record Team := mkTeam {
  team_name : string;
  team_points : Z;
  team_drivers : list driver_ref
}.

Record RaceResult := mkRaceResult {
  result_driver : driver_ref;
  result_position : Z
}.

Record Race := mkRace {
  race_name : string;
  race_results : list RaceResult
}.

(** [Driver(name, team)], [Team(name)] and [Race(name)]. *)
Definition new_Driver (name : string) (team : team_ref) : Driver :=
  mkDriver name team 0 None.
Definition new_Team (name : string) : Team := mkTeam name 0 [].
Definition new_Race (name : string) : Race := mkRace name [].

Definition POINT_SCALE : dict Z Z :=
  [(1, 25); (2, 18); (3, 15); (4, 12); (5, 10);
   (6, 8); (7, 6); (8, 4); (9, 2); (10, 1)].

(** [POINT_SCALE.get(position, 0)] *)
Definition scale_points (position : Z) : Z :=
  default 0 (dict_get position POINT_SCALE).

(** ** The registry: the module's global state *)

Record Registry := mkRegistry {
  driver_heap : list Driver;
  team_heap : list Team;
  drivers_dict : dict string driver_ref;
  teams_dict : dict string team_ref;
  race_dict : dict string Race
}.

Definition empty_registry : Registry := mkRegistry [] [] [] [] [].

Definition with_driver_heap (h : list Driver) (st : Registry) : Registry :=
  mkRegistry h (team_heap st) (drivers_dict st) (teams_dict st) (race_dict st).
Definition with_team_heap (h : list Team) (st : Registry) : Registry :=
  mkRegistry (driver_heap st) h (drivers_dict st) (teams_dict st) (race_dict st).
Definition with_drivers_dict (d : dict string driver_ref) (st : Registry)
  : Registry :=
  mkRegistry (driver_heap st) (team_heap st) d (teams_dict st) (race_dict st).
Definition with_teams_dict (d : dict string team_ref) (st : Registry)
  : Registry :=
  mkRegistry (driver_heap st) (team_heap st) (drivers_dict st) d (race_dict st).
Definition with_race_dict (d : dict string Race) (st : Registry) : Registry :=
  mkRegistry (driver_heap st) (team_heap st) (drivers_dict st) (teams_dict st) d.

(** Field updates on heap objects. *)
Definition add_driver_points (p : Z) (d : Driver) : Driver :=
  mkDriver (driver_name d) (driver_team d) (driver_points d + p)
           (driver_position d).
Definition set_driver_position (i : Z) (d : Driver) : Driver :=
  mkDriver (driver_name d) (driver_team d) (driver_points d) (Some i).
Definition add_team_points (p : Z) (t : Team) : Team :=
  mkTeam (team_name t) (team_points t + p) (team_drivers t).
Definition append_team_driver (r : driver_ref) (t : Team) : Team :=
  mkTeam (team_name t) (team_points t) (team_drivers t ++ [r]).
Definition append_race_result (res : RaceResult) (r : Race) : Race :=
  mkRace (race_name r) (race_results r ++ [res]).

(** [driver.points] and [team.points] read through a reference. *)
Definition points_of_driver (st : Registry) (r : driver_ref) : Z :=
  from_option driver_points 0 (driver_heap st !! r).
Definition points_of_team (st : Registry) (t : team_ref) : Z :=
  from_option team_points 0 (team_heap st !! t).

(** ** What a call reports *)

Inductive exn := ValueError.

Inductive signal :=
  | Recorded (result : RaceResult)   (* the result object that was appended *)
  | Done
  | Printed (msg : string)
  | Raised (e : exn).

(** ** Registration: one entry of [add_driver] (lines 161-170) *)

Definition add_driver (name team_name : string) (st : Registry)
  : Registry * signal :=
  if bool_decide (name = "") || bool_decide (team_name = "") then
    (st, Printed "Invalid input, please try again.")
  else
    let '(team, st1) :=
      match dict_get team_name (teams_dict st) with
      | Some team => (team, st)
      | None =>
          let team := length (team_heap st) in
          (team,
           with_teams_dict (dict_set team_name team (teams_dict st))
             (with_team_heap (team_heap st ++ [new_Team team_name]) st))
      end in
    let driver := length (driver_heap st1) in
    let st2 := with_driver_heap (driver_heap st1 ++ [new_Driver name team]) st1 in
    let st3 := with_drivers_dict (dict_set name driver (drivers_dict st2)) st2 in
    (with_team_heap (alter (append_team_driver driver) team (team_heap st3)) st3,
     Done).

(** One entry of [add_race] (lines 184-186). *)
Definition add_race (name : string) (st : Registry) : Registry :=
  if bool_decide (name = "") then st
  else with_race_dict (dict_set name (new_Race name) (race_dict st)) st.

(** ** Recording: one entry of [record_race_result] (lines 201-215) *)

Definition record_race_result (race_name driver_name position : string)
    (st : Registry) : Registry * signal :=
  match py_int position with
  | None => (st, Raised ValueError)
  | Some pos =>
      if pos <? 1 then (st, Printed "Invalid position.")
      else
        match dict_get race_name (race_dict st),
              dict_get driver_name (drivers_dict st) with
        | Some race, Some driver =>
            let result := mkRaceResult driver pos in
            let st1 :=
              with_race_dict
                (dict_set race_name (append_race_result result race)
                   (race_dict st)) st in
            let points := scale_points (result_position result) in
            let st2 :=
              with_driver_heap
                (alter (add_driver_points points) (result_driver result)
                   (driver_heap st1)) st1 in
            let st3 :=
              match driver_heap st2 !! result_driver result with
              | Some d =>
                  with_team_heap
                    (alter (add_team_points points) (driver_team d)
                       (team_heap st2)) st2
              | None => st2
              end in
            (st3, Recorded result)
        | _, _ => (st, Printed "Invalid driver name or race name.")
        end
  end.

(** ** [finish_race], for one race name

    Every result of the race is scored once more.  No menu entry calls it. *)

Definition score_result (st : Registry) (result : RaceResult) : Registry :=
  let points := scale_points (result_position result) in
  let st1 :=
    with_driver_heap
      (alter (add_driver_points points) (result_driver result)
         (driver_heap st)) st in
  match driver_heap st1 !! result_driver result with
  | Some d =>
      with_team_heap
        (alter (add_team_points points) (driver_team d) (team_heap st1)) st1
  | None => st1
  end.

Definition finish_race (race_name : string) (st : Registry) : Registry :=
  match dict_get race_name (race_dict st) with
  | Some race => foldl score_result st (race_results race)
  | None => st
  end.

(** ** Standings *)

Section sorted.
Context {A : Type} (key : A → Z).

(** [sorted(xs, key=key, reverse=True)]: descending by key, and elements
    with equal keys keep the order they have in [xs]. *)
Fixpoint insert_desc (x : A) (l : list A) : list A :=
  match l with
  | [] => [x]
  | y :: l' =>
      if key y <=? key x then x :: y :: l' else y :: insert_desc x l'
  end.

Definition sorted_desc (xs : list A) : list A := foldr insert_desc [] xs.

(** Non-increasing keys from left to right. *)
Definition desc : relation A := λ x y, key y ≤ key x.
End sorted.

(** [enumerate(xs, start)] *)
Fixpoint enumerate {A : Type} (start : Z) (xs : list A) : list (Z * A) :=
  match xs with
  | [] => []
  | x :: xs' => (start, x) :: enumerate (start + 1) xs'
  end.

(** The loop [for i, driver in ...: driver.position = i]. *)
Definition assign_positions (heap : list Driver)
    (numbered : list (Z * driver_ref)) : list Driver :=
  foldl (λ h '(i, driver), alter (set_driver_position i) driver h)
        heap numbered.

(** [display_driver_position]: the drivers printed, in order, and the
    registry after the positions were assigned. *)
Definition display_driver_position (st : Registry)
  : Registry * list driver_ref :=
  let sorted_drivers :=
    sorted_desc (points_of_driver st) (dict_values (drivers_dict st)) in
  let heap := assign_positions (driver_heap st) (enumerate 1 sorted_drivers) in
  (with_driver_heap heap st, sorted_drivers).

(** [display_team_standings]: the (position, team) pairs printed. *)
Definition display_team_standings (st : Registry)
  : Registry * list (Z * team_ref) :=
  let sorted_teams :=
    sorted_desc (points_of_team st) (dict_values (teams_dict st)) in
  (st, enumerate 1 sorted_teams).

(** ** The menu as a state machine *)

Inductive command :=
  | AddRace (name : string)
  | AddDriver (name team_name : string)
  | RecordResult (race_name driver_name position : string)
  | DisplayPosition
  | DisplayStandings.

Definition step (c : command) (st : Registry) : Registry :=
  match c with
  | AddRace name => add_race name st
  | AddDriver name team_name => (add_driver name team_name st).1
  | RecordResult race_name driver_name position =>
      (record_race_result race_name driver_name position st).1
  | DisplayPosition => (display_driver_position st).1
  | DisplayStandings => (display_team_standings st).1
  end.

Definition run (cs : list command) (st : Registry) : Registry :=
  foldl (λ st c, step c st) st cs.

(** The result objects created by the commands of a session, oldest first. *)
Definition result_of (c : command) (st : Registry) : list RaceResult :=
  match c with
  | RecordResult race_name driver_name position =>
      match (record_race_result race_name driver_name position st).2 with
      | Recorded result => [result]
      | _ => []
      end
  | _ => []
  end.

Fixpoint recorded_results (cs : list command) (st : Registry)
  : list RaceResult :=
  match cs with
  | [] => []
  | c :: cs' => result_of c st ++ recorded_results cs' (step c st)
  end.

(** Sum of the scale's points over a list of results. *)
Definition awarded (results : list RaceResult) : Z :=
  foldr (λ res acc, scale_points (result_position res) + acc) 0 results.

(** The scenario of the specification's section 8. *)
Definition scenario : list command :=
  [AddDriver "A" "T1"; AddDriver "B" "T2"; AddRace "R1";
   RecordResult "R1" "A" "1"; RecordResult "R1" "B" "2"].


(** ** Consistency of the object graph *)

(** Total of [driver.points] over a roster. *)
Definition roster_points (st : Registry) (roster : list driver_ref) : Z :=
  foldr (λ r acc, points_of_driver st r + acc) 0 roster.

(** [driver.team] read through a reference. *)
Definition team_of_driver (st : Registry) (r : driver_ref) : option team_ref :=
  driver_team <$> driver_heap st !! r.

(** What every state of a session satisfies: dictionary entries are live
    objects stored under their own name, every driver is on the roster of
    its team exactly once, rosters hold that team's drivers only, and a
    team's points are the total of its roster. *)
Record wf (st : Registry) : Prop := mk_wf {
  wf_drivers_keys : NoDup (dict_keys (drivers_dict st));
  wf_drivers : ∀ name r, dict_get name (drivers_dict st) = Some r →
    ∃ d, driver_heap st !! r = Some d ∧ driver_name d = name;
  wf_teams_keys : NoDup (dict_keys (teams_dict st));
  wf_teams : ∀ name t, dict_get name (teams_dict st) = Some t →
    ∃ T, team_heap st !! t = Some T ∧ team_name T = name;
  wf_driver_team : ∀ r d, driver_heap st !! r = Some d →
    ∃ T, team_heap st !! driver_team d = Some T ∧ r ∈ team_drivers T;
  wf_roster : ∀ t T r, team_heap st !! t = Some T → r ∈ team_drivers T →
    ∃ d, driver_heap st !! r = Some d ∧ driver_team d = t;
  wf_roster_NoDup : ∀ t T, team_heap st !! t = Some T → NoDup (team_drivers T);
  wf_team_points : ∀ t T, team_heap st !! t = Some T →
    team_points T = roster_points st (team_drivers T)
}.

(** The state after a successful recording, spelled out: [race] gets the
    result, driver [r] and team [t] get the points. *)
Definition recorded_state (st : Registry) (race_name : string) (race : Race)
    (r : driver_ref) (t : team_ref) (pos : Z) : Registry :=
  mkRegistry
    (alter (add_driver_points (scale_points pos)) r (driver_heap st))
    (alter (add_team_points (scale_points pos)) t (team_heap st))
    (drivers_dict st) (teams_dict st)
    (dict_set race_name (append_race_result (mkRaceResult r pos) race)
       (race_dict st)).

(** The state after a registration, spelled out for team reference [t]. *)
Definition registered_state (st : Registry) (name : string) (t : team_ref)
    (teams : list Team) (teams_d : dict string team_ref) : Registry :=
  mkRegistry
    (driver_heap st ++ [new_Driver name t])
    (alter (append_team_driver (length (driver_heap st))) t teams)
    (dict_set name (length (driver_heap st)) (drivers_dict st))
    teams_d (race_dict st).

(** ** The order in which names were first registered *)

(** The name a command registers, if it registers one. *)
Definition registered_name (c : command) : list string :=
  match c with
  | AddDriver name team_name =>
      if bool_decide (name = "") || bool_decide (team_name = "") then []
      else [name]
  | _ => []
  end.

Definition note_name (seen : list string) (name : string) : list string :=
  if decide (name ∈ seen) then seen else seen ++ [name].

(** The registered driver names, each at its first registration. *)
Definition registration_order (cs : list command) : list string :=
  foldl note_name [] (cs ≫= registered_name).

(** [driver.name] read through a reference. *)
Definition name_of_driver (st : Registry) (r : driver_ref) : option string :=
  driver_name <$> driver_heap st !! r.

(** ** Telling the missing name from the report *)

Inductive entity := TheRace | TheDriver.

(** [decode] reads, off the report of a failed recording, which of the two
    names was not registered. *)
Definition names_missing_entity (decode : signal → entity) : Prop :=
  ∀ st rname dname position pos,
    py_int position = Some pos → 1 ≤ pos →
    (dict_get rname (race_dict st) = None →
     is_Some (dict_get dname (drivers_dict st)) →
     decode (record_race_result rname dname position st).2 = TheRace) ∧
    (dict_get dname (drivers_dict st) = None →
     is_Some (dict_get rname (race_dict st)) →
     decode (record_race_result rname dname position st).2 = TheDriver).

(** The registry after the two registrations and the race of the scenario. *)
Definition grid : Registry :=
  run [AddDriver "A" "T1"; AddDriver "B" "T2"; AddRace "R1"] empty_registry.

(** [A] is registered on [T1] twice, with a win in between. *)
Definition twice_registered : Registry :=
  (add_driver "A" "T1" (record_race_result "R1" "A" "1" grid).1).1.

(** ** Further facts about every state of a session *)

(** No entity has an empty name, races are stored under their own name and
    hold results with a position of at least 1 for live drivers, every team
    object is the one registered under its name and has a driver, and no
    driver has negative points. *)
Record tidy (st : Registry) : Prop := mk_tidy {
  tidy_driver_names : "" ∉ dict_keys (drivers_dict st);
  tidy_team_names : "" ∉ dict_keys (teams_dict st);
  tidy_race_names : "" ∉ dict_keys (race_dict st);
  tidy_race_keys : NoDup (dict_keys (race_dict st));
  tidy_races : ∀ name race, dict_get name (race_dict st) = Some race →
    race_name race = name ∧
    ∀ res, res ∈ race_results race →
      1 ≤ result_position res ∧ is_Some (driver_heap st !! result_driver res);
  tidy_teams : ∀ t T, team_heap st !! t = Some T →
    dict_get (team_name T) (teams_dict st) = Some t ∧ team_drivers T ≠ [];
  tidy_points : ∀ r d, driver_heap st !! r = Some d → 0 ≤ driver_points d
}.

(** Sums over the two heaps. *)
Definition sumZ (l : list Z) : Z := foldr Z.add 0 l.
Definition total_driver_points (st : Registry) : Z :=
  sumZ (driver_points <$> driver_heap st).
Definition total_team_points (st : Registry) : Z :=
  sumZ (team_points <$> team_heap st).

(** ** Text of an input line (ASCII)

    [s.lower()], [s.strip()] and [s.split(',')]. *)

Definition lower_ascii (a : ascii) : ascii :=
  let n := N_of_ascii a in
  if ((65 <=? n) && (n <=? 90))%N then ascii_of_N (n + 32) else a.

Definition py_lower (s : string) : string :=
  string_of_list_ascii (lower_ascii <$> list_ascii_of_string s).

Definition py_strip (s : string) : string :=
  string_of_list_ascii (strip (list_ascii_of_string s)).

Fixpoint split_chars (sep : ascii) (s : list ascii) : list (list ascii) :=
  match s with
  | [] => [[]]
  | a :: s' =>
      if bool_decide (a = sep) then [] :: split_chars sep s'
      else
        match split_chars sep s' with
        | field :: fields => (a :: field) :: fields
        | [] => [[a]]
        end
  end.

Definition py_split (sep : ascii) (s : string) : list string :=
  string_of_list_ascii <$> split_chars sep (list_ascii_of_string s).

(** ** The input loops

    [input()] takes the next line of the input; with no line left it raises
    [EOFError].  A loop returns the registry, the lines it has not read and
    the exception that ended it, if one did.  What is printed is left
    out. *)

Inductive py_exception := PyValueError | PyEOFError.

Record handled := mkHandled {
  h_registry : Registry;
  h_unread : list string;
  h_raised : option py_exception
}.

(** [add_race] (lines 178-186) *)
Fixpoint add_race_loop (input : list string) (st : Registry) : handled :=
  match input with
  | [] => mkHandled st [] (Some PyEOFError)
  | name :: input' =>
      if bool_decide (py_lower name = "done") then mkHandled st input' None
      else add_race_loop input' (add_race (py_strip name) st)
  end.

(** One pass of the [try] block of [add_driver] (lines 159-172): unpacking
    anything but two fields raises [ValueError], caught on the spot. *)
Definition add_driver_entry (data : string) (st : Registry)
  : Registry * signal :=
  match py_strip <$> py_split "," data with
  | [name; team_name] => add_driver name team_name st
  | _ =>
      (st, Printed
"Invalid input, please provide data in format 'driver_name, team_name'.")
  end.

(** [add_driver] (lines 154-172) *)
Fixpoint add_driver_loop (input : list string) (st : Registry) : handled :=
  match input with
  | [] => mkHandled st [] (Some PyEOFError)
  | data :: input' =>
      if bool_decide (py_lower data = "done") then mkHandled st input' None
      else add_driver_loop input' (add_driver_entry data st).1
  end.

(** One pass of the loop of [record_race_result] (lines 195-215). *)
Inductive loop_step :=
  | Break
  | Next (st : Registry)
  | Abort (e : py_exception).

Definition record_entry (race_name line : string) (st : Registry)
  : loop_step :=
  let data := py_split "," line in
  if (length data <? 2)%nat || bool_decide (py_lower (hd "" data) = "done")
  then Break
  else
    match py_strip <$> data with
    | [driver_name; position] =>
        match record_race_result race_name driver_name position st with
        | (_, Raised ValueError) => Abort PyValueError
        | (st', _) => Next st'
        end
    | _ => Abort PyValueError
    end.

Fixpoint record_race_result_lines (race_name : string) (input : list string)
    (st : Registry) : handled :=
  match input with
  | [] => mkHandled st [] (Some PyEOFError)
  | line :: input' =>
      match record_entry race_name line st with
      | Break => mkHandled st input' None
      | Next st' => record_race_result_lines race_name input' st'
      | Abort e => mkHandled st input' (Some e)
      end
  end.

(** [record_race_result] (lines 192-215) *)
Definition record_race_result_loop (input : list string) (st : Registry)
  : handled :=
  match input with
  | [] => mkHandled st [] (Some PyEOFError)
  | race_name :: input' =>
      record_race_result_lines (py_strip race_name) input' st
  end.

(** [finish_race] (lines 223-232) *)
Definition finish_race_input (input : list string) (st : Registry)
  : handled :=
  match input with
  | [] => mkHandled st [] (Some PyEOFError)
  | race_names :: input' =>
      mkHandled
        (foldl (λ st race_name, finish_race (py_strip race_name) st) st
           (py_split "," race_names))
        input' None
  end.

(** ** The champion tables

    [load_champions] and [load_constructors] on the rows the CSV reader
    yields, and the two lookups on the line read for the year. *)

Fixpoint load_rows (rows : list (list string)) (table : dict Z string)
  : dict Z string * option exn :=
  match rows with
  | [] => (table, None)
  | row :: rows' =>
      match row with
      | [year; champion] =>
          match py_int year with
          | Some y => load_rows rows' (dict_set y (py_strip champion) table)
          | None => (table, Some ValueError)
          end
      | _ => (table, Some ValueError)
      end
  end.

Definition load_constructors (rows : list (list string))
  : dict Z string * option exn := load_rows rows [].

Definition no_information (year : Z) : string :=
  "No information available for the year " +:+ pretty year +:+ ".".

Definition lookup_champion (champions_dict : dict Z string) (line : string)
  : signal :=
  match py_int line with
  | None => Raised ValueError
  | Some year =>
      match dict_get year champions_dict with
      | Some champion =>
          if bool_decide (champion = "") then Printed (no_information year)
          else Printed ("The drivers champion of " +:+ pretty year +:+
                        " was " +:+ champion +:+ ".")
      | None => Printed (no_information year)
      end
  end.

Definition lookup_constructors (constructors_dict : dict Z string)
    (line : string) : signal :=
  match py_int line with
  | None => Raised ValueError
  | Some year =>
      match dict_get year constructors_dict with
      | Some constructor =>
          if bool_decide (constructor = "") then Printed (no_information year)
          else Printed ("The constructors champion of " +:+ pretty year +:+
                        " was " +:+ constructor +:+ ".")
      | None => Printed (no_information year)
      end
  end.

(** ** The menu loop of [main] (lines 286-313)

    Both [except] clauses print and go round again, so an exception ends
    the handler and nothing else.  The lookups read one line; the scraper
    reads none.  [main_loop] makes at most [fuel] rounds. *)

Inductive Choice :=
  | ADD_RACE | ADD_DRIVER | RECORD_RESULT | DISPLAY_POSITION
  | DISPLAY_STANDINGS | LOOKUP_CHAMPION | LOOKUP_CONSTRUCTORS
  | SCRAPE_F1_CRASH_DATA | EXIT.

(** [Choice(n)]; [None] stands for [ValueError]. *)
Definition Choice_of (n : Z) : option Choice :=
  match n with
  | 1 => Some ADD_RACE | 2 => Some ADD_DRIVER | 3 => Some RECORD_RESULT
  | 4 => Some DISPLAY_POSITION | 5 => Some DISPLAY_STANDINGS
  | 6 => Some LOOKUP_CHAMPION | 7 => Some LOOKUP_CONSTRUCTORS
  | 8 => Some SCRAPE_F1_CRASH_DATA | 9 => Some EXIT
  | _ => None
  end.

Definition dispatch (choice : Choice) (input : list string) (st : Registry)
  : Registry * list string :=
  match choice with
  | ADD_RACE =>
      let h := add_race_loop input st in (h_registry h, h_unread h)
  | ADD_DRIVER =>
      let h := add_driver_loop input st in (h_registry h, h_unread h)
  | RECORD_RESULT =>
      let h := record_race_result_loop input st in (h_registry h, h_unread h)
  | DISPLAY_POSITION => ((display_driver_position st).1, input)
  | DISPLAY_STANDINGS => ((display_team_standings st).1, input)
  | LOOKUP_CHAMPION | LOOKUP_CONSTRUCTORS => (st, tail input)
  | SCRAPE_F1_CRASH_DATA | EXIT => (st, input)
  end.

Inductive main_result :=
  | Exited (st : Registry) (unread : list string)
  | Running (st : Registry) (unread : list string).

Fixpoint main_loop (fuel : nat) (input : list string) (st : Registry)
  : main_result :=
  match fuel with
  | O => Running st input
  | S fuel' =>
      match input with
      | [] => main_loop fuel' [] st
      | line :: input' =>
          match py_int line ≫= Choice_of with
          | None => main_loop fuel' input' st
          | Some EXIT => Exited st input'
          | Some choice =>
              let '(st', input'') := dispatch choice input' st in
              main_loop fuel' input'' st'
          end
      end
  end.

(** The command an input line of [add_driver] stands for, if it has two
    fields. *)
Definition driver_command (data : string) : option command :=
  match py_strip <$> py_split "," data with
  | [name; team_name] => Some (AddDriver name team_name)
  | _ => None
  end.

(** The command an input line of [record_race_result] stands for. *)
Definition result_command (race_name line : string) : option command :=
  match py_strip <$> py_split "," line with
  | [driver_name; position] =>
      Some (RecordResult race_name driver_name position)
  | _ => None
  end.

Definition registry_of (res : main_result) : Registry :=
  match res with Exited st _ | Running st _ => st end.

(** A line the loop of [record_race_result] gets past: two fields, the
    first not reading "done", the second a number. *)
Definition entry_ok (line : string) : Prop :=
  ∃ driver position,
    py_split "," line = [driver; position] ∧
    py_lower driver ≠ "done" ∧
    is_Some (py_int (py_strip position)).

(** The team name a command registers, if it registers one. *)
Definition registered_team (c : command) : list string :=
  match c with
  | AddDriver name team_name =>
      if bool_decide (name = "") || bool_decide (team_name = "") then []
      else [team_name]
  | _ => []
  end.

(** The team names, each at the first registration that names it. *)
Definition team_order (cs : list command) : list string :=
  foldl note_name [] (cs ≫= registered_team).

(** [team.name] read through a reference. *)
Definition name_of_team (st : Registry) (t : team_ref) : option string :=
  team_name <$> team_heap st !! t.

(** * Properties *)

(** ** The model on examples *)

Example py_int_examples :
  py_int "1" = Some 1 ∧ py_int "10" = Some 10 ∧ py_int "-3" = Some (-3) ∧
  py_int "+7" = Some 7 ∧ py_int "1_0" = Some 10 ∧ py_int " 12 " = Some 12 ∧
  py_int "0" = Some 0 ∧ py_int "abc" = None ∧ py_int "" = None ∧
  py_int "1__0" = None ∧ py_int "_1" = None ∧ py_int "1_" = None ∧
  py_int "1.5" = None ∧ py_int "-" = None.
Proof. repeat split; reflexivity. Qed.

Example scenario_state :
  run scenario empty_registry =
  mkRegistry
    [mkDriver "A" 0%nat 25 None; mkDriver "B" 1%nat 18 None]
    [mkTeam "T1" 25 [0%nat]; mkTeam "T2" 18 [1%nat]]
    [("A", 0%nat); ("B", 1%nat)]
    [("T1", 0%nat); ("T2", 1%nat)]
    [("R1", mkRace "R1" [mkRaceResult 0%nat 1; mkRaceResult 1%nat 2])].
Proof. reflexivity. Qed.

Example scenario_standings :
  (display_driver_position (run scenario empty_registry)).2 = [0%nat; 1%nat] ∧
  driver_heap (display_driver_position (run scenario empty_registry)).1 =
    [mkDriver "A" 0%nat 25 (Some 1); mkDriver "B" 1%nat 18 (Some 2)] ∧
  (display_team_standings (run scenario empty_registry)).2 =
    [(1, 0%nat); (2, 1%nat)].
Proof. repeat split; reflexivity. Qed.

(** [finish_race] scores the recorded results a second time. *)
Example finish_race_scores_again :
  driver_heap (finish_race "R1" (run scenario empty_registry)) =
    [mkDriver "A" 0%nat 50 None; mkDriver "B" 1%nat 36 None] ∧
  team_heap (finish_race "R1" (run scenario empty_registry)) =
    [mkTeam "T1" 50 [0%nat]; mkTeam "T2" 36 [1%nat]].
Proof. split; reflexivity. Qed.

(** ** Dictionaries *)

Section dict_facts.
Context {K V : Type} `{EqDecision K}.
Implicit Types (d : dict K V) (k : K) (v : V).

Lemma dict_get_set_eq k v d : dict_get k (dict_set k v d) = Some v.
Proof.
  induction d as [|[k' v'] d IH]; simpl.
  - by rewrite decide_True.
  - destruct (decide (k' = k)) as [->|Hne]; simpl.
    + by rewrite decide_True.
    + by rewrite decide_False.
Qed.

Lemma dict_get_set_ne k k' v d :
  k ≠ k' → dict_get k' (dict_set k v d) = dict_get k' d.
Proof.
  intros Hne. induction d as [|[k0 v0] d IH]; simpl.
  - by rewrite decide_False.
  - destruct (decide (k0 = k)) as [->|Hne0]; simpl.
    + by rewrite !decide_False.
    + by rewrite IH.
Qed.

Lemma dict_get_elem k v d : dict_get k d = Some v → (k, v) ∈ d.
Proof.
  induction d as [|[k' v'] d IH]; simpl; [done|].
  destruct (decide (k' = k)) as [->|Hne].
  - intros [= ->]. left.
  - intros Hg. right. by apply IH.
Qed.

Lemma dict_get_None k d : dict_get k d = None ↔ k ∉ dict_keys d.
Proof.
  unfold dict_keys. induction d as [|[k' v'] d IH]; simpl.
  - split; [intros _; apply not_elem_of_nil|done].
  - rewrite not_elem_of_cons. destruct (decide (k' = k)) as [->|Hne].
    + split; [done|]. by intros [? _].
    + rewrite IH. split; [by split|]. by intros [_ ?].
Qed.

Lemma elem_dict_get k v d :
  NoDup (dict_keys d) → (k, v) ∈ d → dict_get k d = Some v.
Proof.
  unfold dict_keys. induction d as [|[k' v'] d IH]; simpl.
  - intros _ Hin. by apply elem_of_nil in Hin.
  - intros [Hk Hnd]%NoDup_cons [Heq|Hin]%elem_of_cons.
    + injection Heq as -> ->. by rewrite decide_True.
    + rewrite decide_False; [by apply IH|].
      intros ->. apply Hk. apply (list_elem_of_fmap_2 fst) in Hin. done.
Qed.

(** Assigning to a present key keeps the key order; a new key goes last. *)
Lemma dict_keys_set k v d :
  dict_keys (dict_set k v d) =
  if dict_get k d is Some _ then dict_keys d else dict_keys d ++ [k].
Proof.
  unfold dict_keys. induction d as [|[k' v'] d IH]; simpl; [done|].
  destruct (decide (k' = k)) as [->|Hne]; [done|].
  rewrite fmap_cons, IH. by destruct (dict_get k d).
Qed.

Lemma dict_set_new k v d : dict_get k d = None → dict_set k v d = d ++ [(k, v)].
Proof.
  induction d as [|[k' v'] d IH]; simpl; [done|].
  destruct (decide (k' = k)); [done|]. intros Hg. by rewrite IH.
Qed.

Lemma dict_set_NoDup k v d :
  NoDup (dict_keys d) → NoDup (dict_keys (dict_set k v d)).
Proof.
  intros Hnd. rewrite dict_keys_set.
  destruct (dict_get k d) eqn:Hg; [done|].
  apply NoDup_app. split_and!; [done| |apply NoDup_singleton].
  intros x Hx ->%list_elem_of_singleton. by apply dict_get_None in Hg.
Qed.

Lemma elem_dict_values v d :
  NoDup (dict_keys d) → v ∈ dict_values d ↔ ∃ k, dict_get k d = Some v.
Proof.
  intros Hnd. unfold dict_values. rewrite list_elem_of_fmap. split.
  - intros ([k v'] & -> & Hin). exists k. by apply elem_dict_get.
  - intros [k Hg]. exists (k, v). split; [done|by apply dict_get_elem].
Qed.
End dict_facts.

(** ** Sorting by points *)

Section sorted_facts.
Context {A : Type} (key : A → Z).
Implicit Types (x : A) (l : list A).

Lemma insert_desc_perm x l : insert_desc key x l ≡ₚ x :: l.
Proof.
  induction l as [|y l IH]; simpl; [done|].
  destruct (key y <=? key x); [done|].
  rewrite IH. apply Permutation_swap.
Qed.

Lemma sorted_desc_perm l : sorted_desc key l ≡ₚ l.
Proof.
  induction l as [|x l IH]; simpl; [done|].
  by rewrite insert_desc_perm, IH.
Qed.

Lemma sorted_desc_length l : length (sorted_desc key l) = length l.
Proof. by rewrite sorted_desc_perm. Qed.

Lemma insert_desc_sorted x l :
  StronglySorted (desc key) l → StronglySorted (desc key) (insert_desc key x l).
Proof.
  induction l as [|y l IH]; simpl; intros Hs.
  - repeat constructor.
  - apply StronglySorted_cons in Hs as [Hy Hs].
    destruct (Z.leb_spec (key y) (key x)) as [Hle|Hlt].
    + apply StronglySorted_cons. split.
      * constructor; [done|].
        eapply Forall_impl; [exact Hy|]. unfold desc. intros z Hz. lia.
      * by apply StronglySorted_cons.
    + apply StronglySorted_cons. split; [|by apply IH].
      rewrite insert_desc_perm. constructor; [|done]. unfold desc. lia.
Qed.

Lemma sorted_desc_sorted l : StronglySorted (desc key) (sorted_desc key l).
Proof.
  induction l as [|x l IH]; simpl; [constructor|by apply insert_desc_sorted].
Qed.

(** Stability: the elements of any one key keep their order. *)
Lemma insert_desc_stable (p : Z) x l :
  filter (λ y, key y = p) (insert_desc key x l) =
  filter (λ y, key y = p) (x :: l).
Proof.
  induction l as [|y l IH]; simpl; [done|].
  destruct (Z.leb_spec (key y) (key x)) as [Hle|Hlt]; [done|].
  rewrite filter_cons, IH, !filter_cons.
  repeat case_decide; try done; lia.
Qed.

Lemma sorted_desc_stable (p : Z) l :
  filter (λ y, key y = p) (sorted_desc key l) = filter (λ y, key y = p) l.
Proof.
  induction l as [|x l IH]; simpl; [done|].
  by rewrite insert_desc_stable, !filter_cons, IH.
Qed.

Lemma sorted_desc_ext (key' : A → Z) l :
  (∀ x, x ∈ l → key x = key' x) → sorted_desc key l = sorted_desc key' l.
Proof.
  induction l as [|x l IH]; simpl; intros Hk; [done|].
  rewrite <- IH by (intros; apply Hk; by right).
  assert (Hin : ∀ y, y ∈ sorted_desc key l → key y = key' y).
  { intros y Hy. apply Hk. right. by rewrite <- (sorted_desc_perm l). }
  assert (Hx : key x = key' x) by (apply Hk; left).
  clear IH Hk. induction (sorted_desc key l) as [|y m IH]; simpl; [done|].
  rewrite <- Hx, <- (Hin y) by left.
  destruct (key y <=? key x); [done|].
  f_equal. apply IH. intros; apply Hin; by right.
Qed.
End sorted_facts.

(** ** Numbering *)

Lemma enumerate_fst {A} (start : Z) (xs : list A) :
  (enumerate start xs).*1 = seqZ start (Z.of_nat (length xs)).
Proof.
  revert start. induction xs as [|x xs IH]; intros start; [done|].
  cbn [enumerate length]. rewrite fmap_cons, IH. simpl fst.
  rewrite (seqZ_cons start) by lia. do 2 f_equal. lia.
Qed.

Lemma enumerate_snd {A} (start : Z) (xs : list A) :
  (enumerate start xs).*2 = xs.
Proof.
  revert start. induction xs as [|x xs IH]; intros start; [done|].
  cbn [enumerate]. by rewrite fmap_cons, IH.
Qed.

Lemma enumerate_lookup {A} (start : Z) (xs : list A) (i : nat) :
  enumerate start xs !! i = (λ x, (start + Z.of_nat i, x)) <$> xs !! i.
Proof.
  revert start i. induction xs as [|x xs IH]; intros start [|i]; try done.
  - simpl. do 2 f_equal. lia.
  - cbn [enumerate]. rewrite !lookup_cons. rewrite IH.
    destruct (xs !! i); [|done]. simpl. do 2 f_equal. lia.
Qed.

(** ** The position loop *)

Lemma assign_positions_length heap numbered :
  length (assign_positions heap numbered) = length heap.
Proof.
  revert heap. induction numbered as [|[i r] ps IH]; intros heap; [done|].
  unfold assign_positions in *. simpl. rewrite IH. apply length_alter.
Qed.

Lemma assign_positions_other heap numbered (r : driver_ref) :
  r ∉ numbered.*2 → assign_positions heap numbered !! r = heap !! r.
Proof.
  revert heap. induction numbered as [|[i r'] ps IH]; intros heap; [done|].
  rewrite fmap_cons, not_elem_of_cons. simpl. intros [Hne Hnin].
  unfold assign_positions in *. simpl. rewrite IH by done.
  by apply list_lookup_alter_ne.
Qed.

Lemma assign_positions_at heap numbered (i : Z) (r : driver_ref) :
  NoDup numbered.*2 → (i, r) ∈ numbered →
  assign_positions heap numbered !! r = set_driver_position i <$> heap !! r.
Proof.
  revert heap. induction numbered as [|[i' r'] ps IH]; intros heap.
  - intros _ Hin. by apply elem_of_nil in Hin.
  - rewrite fmap_cons. simpl. intros [Hr Hnd]%NoDup_cons [Heq|Hin]%elem_of_cons.
    + injection Heq as -> ->. 
      change (assign_positions (alter (set_driver_position i') r' heap) ps !! r'
              = set_driver_position i' <$> heap !! r').
      rewrite assign_positions_other by done. apply list_lookup_alter_eq.
    + change (assign_positions (alter (set_driver_position i') r' heap) ps !! r
              = set_driver_position i <$> heap !! r).
      rewrite IH by done. rewrite list_lookup_alter_ne; [done|].
      intros ->. apply Hr. by apply (list_elem_of_fmap_2 snd) in Hin.
Qed.

(** The loop writes [position] only: any other field reads as before. *)
Lemma assign_positions_field {B} (f : Driver → B) heap numbered (r : driver_ref) :
  (∀ i d, f (set_driver_position i d) = f d) →
  f <$> assign_positions heap numbered !! r = f <$> heap !! r.
Proof.
  intros Hf. revert heap.
  induction numbered as [|[i r'] ps IH]; intros heap; [done|].
  change (f <$> assign_positions (alter (set_driver_position i) r' heap) ps !! r
          = f <$> heap !! r).
  rewrite IH. destruct (decide (r' = r)) as [->|Hne].
  - rewrite list_lookup_alter_eq. destruct (heap !! r); simpl; [|done].
    by rewrite Hf.
  - by rewrite list_lookup_alter_ne.
Qed.

(** ** The two mutators, case by case *)

Lemma add_driver_cases name team_name st :
  add_driver name team_name st =
  if bool_decide (name = "") || bool_decide (team_name = "") then
    (st, Printed "Invalid input, please try again.")
  else
    match dict_get team_name (teams_dict st) with
    | Some t => (registered_state st name t (team_heap st) (teams_dict st), Done)
    | None =>
        (registered_state st name (length (team_heap st))
           (team_heap st ++ [new_Team team_name])
           (dict_set team_name (length (team_heap st)) (teams_dict st)), Done)
    end.
Proof.
  unfold add_driver.
  destruct (bool_decide (name = "") || bool_decide (team_name = "")); [done|].
  by destruct (dict_get team_name (teams_dict st)).
Qed.

Lemma record_race_result_cases race_name driver_name position st :
  record_race_result race_name driver_name position st =
  match py_int position with
  | None => (st, Raised ValueError)
  | Some pos =>
      if pos <? 1 then (st, Printed "Invalid position.")
      else
        match dict_get race_name (race_dict st),
              dict_get driver_name (drivers_dict st) with
        | Some race, Some r =>
            (match driver_heap st !! r with
             | Some d => recorded_state st race_name race r (driver_team d) pos
             | None =>
                 with_race_dict
                   (dict_set race_name
                      (append_race_result (mkRaceResult r pos) race)
                      (race_dict st)) st
             end, Recorded (mkRaceResult r pos))
        | _, _ => (st, Printed "Invalid driver name or race name.")
        end
  end.
Proof.
  unfold record_race_result.
  destruct (py_int position) as [pos|]; [|done].
  destruct (pos <? 1); [done|].
  destruct (dict_get race_name (race_dict st)) as [race|]; [|done].
  destruct (dict_get driver_name (drivers_dict st)) as [r|]; [|done].
  f_equal. cbn [result_driver result_position driver_heap with_driver_heap
                with_race_dict].
  rewrite list_lookup_alter_eq.
  destruct (driver_heap st !! r) as [d|] eqn:Hd; simpl.
  - done.
  - unfold with_driver_heap, with_race_dict. simpl. f_equal.
    apply list_eq. intros i. destruct (decide (r = i)) as [<-|Hne].
    + by rewrite list_lookup_alter_eq, Hd.
    + by rewrite list_lookup_alter_ne.
Qed.

(** ** Reading the heaps after an update *)

Lemma lookup_alter_inv {A} (f : A → A) (l : list A) (i j : nat) (y : A) :
  alter f i l !! j = Some y →
  ∃ x, l !! j = Some x ∧ ((i ≠ j ∧ y = x) ∨ (i = j ∧ y = f x)).
Proof.
  rewrite list_lookup_alter. destruct (decide (i = j)) as [->|Hne].
  - destruct (l !! j) as [x|]; [|done]. intros [= <-]. exists x. naive_solver.
  - intros Hy. exists y. naive_solver.
Qed.

Lemma lookup_alter_fwd {A} (f : A → A) (l : list A) (i j : nat) (x : A) :
  l !! j = Some x →
  alter f i l !! j = Some (if decide (i = j) then f x else x).
Proof.
  intros Hx. rewrite list_lookup_alter.
  destruct (decide (i = j)) as [->|Hne]; [by rewrite Hx|done].
Qed.

Lemma assign_positions_inv heap numbered (r : driver_ref) d' :
  assign_positions heap numbered !! r = Some d' →
  ∃ d, heap !! r = Some d ∧ driver_name d' = driver_name d ∧
       driver_team d' = driver_team d ∧ driver_points d' = driver_points d.
Proof.
  intros Hd'.
  pose proof (assign_positions_field
    (λ d, (driver_name d, driver_team d, driver_points d)) heap numbered r
    (λ _ _, eq_refl)) as Hf.
  rewrite Hd' in Hf. destruct (heap !! r) as [d|]; [|done].
  injection Hf as Hn Ht Hp. by exists d.
Qed.

Lemma assign_positions_fwd heap numbered (r : driver_ref) d :
  heap !! r = Some d →
  ∃ d', assign_positions heap numbered !! r = Some d' ∧
        driver_name d' = driver_name d ∧
        driver_team d' = driver_team d ∧ driver_points d' = driver_points d.
Proof.
  intros Hd.
  destruct (assign_positions heap numbered !! r) as [d'|] eqn:Hd'.
  - apply assign_positions_inv in Hd' as (d0 & Hd0 & ?). 
    exists d'. by simplify_eq.
  - apply lookup_ge_None in Hd'. apply lookup_lt_Some in Hd.
    rewrite assign_positions_length in Hd'. lia.
Qed.

(** ** Roster totals *)

Lemma roster_points_ext st st' (l : list driver_ref) :
  (∀ r, r ∈ l → points_of_driver st' r = points_of_driver st r) →
  roster_points st' l = roster_points st l.
Proof.
  induction l as [|r l IH]; intros Heq; [done|].
  unfold roster_points in *. simpl.
  rewrite IH by (intros; apply Heq; by right).
  rewrite Heq by left. done.
Qed.

Lemma roster_points_app st (l k : list driver_ref) :
  roster_points st (l ++ k) = roster_points st l + roster_points st k.
Proof.
  induction l as [|r l IH]; unfold roster_points in *; simpl; [done|].
  rewrite IH. lia.
Qed.

Lemma roster_points_bump st st' (l : list driver_ref) r p :
  NoDup l → r ∈ l →
  points_of_driver st' r = points_of_driver st r + p →
  (∀ r', r' ≠ r → points_of_driver st' r' = points_of_driver st r') →
  roster_points st' l = roster_points st l + p.
Proof.
  intros Hnd Hin Hr Hother. induction l as [|r0 l IH].
  - by apply elem_of_nil in Hin.
  - apply NoDup_cons in Hnd as [Hr0 Hnd].
    change (points_of_driver st' r0 + roster_points st' l =
            points_of_driver st r0 + roster_points st l + p).
    destruct (decide (r0 = r)) as [->|Hne].
    + rewrite Hr, (roster_points_ext st st' l); [lia|].
      intros r' Hr'. apply Hother. by intros ->.
    + apply elem_of_cons in Hin as [->|Hin]; [done|].
      rewrite Hother, IH by done. lia.
Qed.

(** ** The invariant holds in every state of a session *)

Lemma wf_empty : wf empty_registry.
Proof.
  split; simpl; try done; try constructor;
    intros; by rewrite ?lookup_nil in *. 
Qed.

Lemma wf_with_race_dict d st : wf st → wf (with_race_dict d st).
Proof. intros []. by split. Qed.

Lemma wf_add_race name st : wf st → wf (add_race name st).
Proof.
  intros Hwf. unfold add_race. case_bool_decide; [done|].
  by apply wf_with_race_dict.
Qed.

Lemma wf_display_driver_position st :
  wf st → wf (display_driver_position st).1.
Proof.
  intros [Hdk Hd Htk Ht Hdt Hro Hnd Hpts]. unfold display_driver_position.
  set (ps := enumerate 1 _). simpl.
  assert (Hp : ∀ r, points_of_driver
                 (with_driver_heap (assign_positions (driver_heap st) ps) st) r
               = points_of_driver st r).
  { intros r. unfold points_of_driver. simpl.
    pose proof (assign_positions_field driver_points (driver_heap st) ps r
                  (λ _ _, eq_refl)) as Hf.
    destruct (assign_positions _ _ !! r), (driver_heap st !! r);
      simpl in *; congruence. }
  split; simpl; try done.
  - intros name r Hg. destruct (Hd _ _ Hg) as (d & Hr & Hn).
    destruct (assign_positions_fwd _ ps _ _ Hr) as (d' & ? & ? & ?).
    exists d'. split; [done|congruence].
  - intros r d' (d & Hr & _ & Hteam & _)%assign_positions_inv.
    rewrite Hteam. eauto.
  - intros t T r HT Hin. destruct (Hro _ _ _ HT Hin) as (d & Hr & Hteam).
    destruct (assign_positions_fwd _ ps _ _ Hr) as (d' & ? & ? & ? & ?).
    exists d'. split; [done|congruence].
  - intros t T HT. rewrite (Hpts _ _ HT). symmetry.
    apply roster_points_ext. intros; apply Hp.
Qed.

Lemma recorded_state_points_eq st race_name race r t pos d :
  driver_heap st !! r = Some d →
  points_of_driver (recorded_state st race_name race r t pos) r =
  points_of_driver st r + scale_points pos.
Proof.
  intros Hd. unfold points_of_driver. simpl.
  by rewrite list_lookup_alter_eq, Hd.
Qed.

Lemma recorded_state_points_ne st race_name race r t pos r' :
  r' ≠ r →
  points_of_driver (recorded_state st race_name race r t pos) r' =
  points_of_driver st r'.
Proof.
  intros Hne. unfold points_of_driver. simpl.
  by rewrite list_lookup_alter_ne.
Qed.

Lemma wf_recorded_state st race_name race r pos d :
  wf st → driver_heap st !! r = Some d →
  wf (recorded_state st race_name race r (driver_team d) pos).
Proof.
  intros [Hdk Hd Htk Ht Hdt Hro Hnd Hpts] Hr.
  set (st' := recorded_state _ _ _ _ _ _).
  split; simpl; try done.
  - intros name r' Hg. destruct (Hd _ _ Hg) as (d' & Hr' & Hn).
    eexists. split; [by apply lookup_alter_fwd|]. by case_decide.
  - intros name t Hg. destruct (Ht _ _ Hg) as (T & HT & Hn).
    eexists. split; [by apply lookup_alter_fwd|]. by case_decide.
  - intros r' d' (d0 & Hr' & Hd')%lookup_alter_inv.
    assert (driver_team d' = driver_team d0) as ->
      by (by destruct Hd' as [[_ ->]|[_ ->]]).
    destruct (Hdt _ _ Hr') as (T & HT & Hin).
    eexists. split; [by apply lookup_alter_fwd|]. by case_decide.
  - intros t T' r' (T & HT & HT')%lookup_alter_inv Hin.
    assert (team_drivers T' = team_drivers T) as Heq
      by (by destruct HT' as [[_ ->]|[_ ->]]).
    rewrite Heq in Hin. destruct (Hro _ _ _ HT Hin) as (d' & Hr' & Hteam).
    eexists. split; [by apply lookup_alter_fwd|]. by case_decide.
  - intros t T' (T & HT & HT')%lookup_alter_inv.
    assert (team_drivers T' = team_drivers T) as ->
      by (by destruct HT' as [[_ ->]|[_ ->]]).
    eauto.
  - intros t T' (T & HT & [[Hne ->]|[<- ->]])%lookup_alter_inv.
    + rewrite (Hpts _ _ HT). symmetry. apply roster_points_ext.
      intros r' Hin. apply recorded_state_points_ne. intros ->.
      destruct (Hro _ _ _ HT Hin) as (d' & Hr' & Hteam). congruence.
    + simpl. rewrite (Hpts _ _ HT). symmetry.
      destruct (Hdt _ _ Hr) as (T0 & HT0 & Hin).
      assert (T0 = T) as -> by congruence.
      apply (roster_points_bump _ _ _ r); [by eapply Hnd|done| |].
      * by eapply recorded_state_points_eq.
      * intros. by apply recorded_state_points_ne.
Qed.

Lemma wf_record_race_result race_name driver_name position st :
  wf st → wf (record_race_result race_name driver_name position st).1.
Proof.
  intros Hwf. rewrite record_race_result_cases.
  destruct (py_int position) as [pos|]; [|done].
  destruct (pos <? 1); [done|].
  destruct (dict_get race_name (race_dict st)) as [race|]; [|done].
  destruct (dict_get driver_name (drivers_dict st)) as [r|] eqn:Hg; [|done].
  destruct (wf_drivers _ Hwf _ _ Hg) as (d & Hd & _). rewrite Hd.
  by apply wf_recorded_state.
Qed.

(** Registration on a team that is in the heap. *)
Lemma wf_registered_state st name t teams teams_d :
  wf (with_teams_dict teams_d (with_team_heap teams st)) →
  is_Some (teams !! t) →
  wf (registered_state st name t teams teams_d).
Proof.
  intros [Hdk Hd Htk Ht Hdt Hro Hnd Hpts] [T0 HT0]. simpl in *.
  set (r0 := length (driver_heap st)).
  assert (Hfresh : ∀ t' T r, teams !! t' = Some T → r ∈ team_drivers T →
                             r ≠ r0).
  { intros t' T r HT Hin. destruct (Hro _ _ _ HT Hin) as (d & Hr & _).
    apply lookup_lt_Some in Hr. unfold r0. lia. }
  assert (Hold : ∀ r, r ≠ r0 →
    points_of_driver (registered_state st name t teams teams_d) r =
    points_of_driver (with_teams_dict teams_d (with_team_heap teams st)) r).
  { intros r Hne. unfold points_of_driver. simpl.
    destruct (driver_heap st !! r) as [d|] eqn:Hr.
    - by rewrite lookup_app_l_Some with (x := d).
    - apply lookup_ge_None in Hr.
      rewrite (proj2 (lookup_ge_None _ r)); [done|].
      rewrite length_app. simpl. fold r0 in Hr |- *. lia. }
  split; simpl.
  - by apply dict_set_NoDup.
  - intros n r. destruct (decide (name = n)) as [->|Hne].
    + rewrite dict_get_set_eq. intros [= <-].
      exists (new_Driver n t). split; [by apply list_lookup_middle|done].
    + rewrite dict_get_set_ne by done. intros Hg.
      destruct (Hd _ _ Hg) as (d & Hr & Hn). exists d. split; [|done].
      by apply lookup_app_l_Some.
  - done.
  - intros n t' Hg. destruct (Ht _ _ Hg) as (T & HT & Hn).
    eexists. split; [by apply lookup_alter_fwd|]. by case_decide.
  - intros r d [[Hlt Hr]|[-> <-]]%lookup_snoc_Some.
    + destruct (Hdt _ _ Hr) as (T & HT & Hin).
      eexists. split; [by apply lookup_alter_fwd|].
      case_decide; [|done]. simpl. apply elem_of_app. by left.
    + simpl. eexists. split; [by apply lookup_alter_fwd|].
      rewrite decide_True by done. simpl. apply elem_of_app. right. left.
  - intros t' T' r (T & HT & [[Hne ->]|[<- ->]])%lookup_alter_inv Hin.
    + destruct (Hro _ _ _ HT Hin) as (d & Hr & Hteam).
      exists d. split; [by apply lookup_app_l_Some|done].
    + simpl in Hin. apply elem_of_app in Hin as [Hin|Hin];
        [|apply list_elem_of_singleton in Hin as ->].
      * destruct (Hro _ _ _ HT Hin) as (d & Hr & Hteam).
        exists d. split; [by apply lookup_app_l_Some|done].
      * exists (new_Driver name t). split; [by apply list_lookup_middle|done].
  - intros t' T' (T & HT & [[Hne ->]|[<- ->]])%lookup_alter_inv; [by eauto|].
    simpl. apply NoDup_app. split_and!; [by eauto| |apply NoDup_singleton].
    intros r Hin ->%list_elem_of_singleton. by eapply Hfresh.
  - intros t' T' (T & HT & [[Hne ->]|[<- ->]])%lookup_alter_inv.
    + rewrite (Hpts _ _ HT). symmetry. apply roster_points_ext.
      intros r Hin. apply Hold. by eapply Hfresh.
    + simpl. rewrite roster_points_app, (Hpts _ _ HT).
      rewrite (roster_points_ext _ (registered_state st name t teams teams_d)
                 (team_drivers T)) by (intros r Hin; apply Hold;
                                       by eapply Hfresh).
      unfold roster_points at 3. simpl. unfold points_of_driver. simpl.
      rewrite list_lookup_middle by done. simpl. lia.
Qed.

Lemma wf_new_team team_name st :
  wf st →
  wf (with_teams_dict
        (dict_set team_name (length (team_heap st)) (teams_dict st))
        (with_team_heap (team_heap st ++ [new_Team team_name]) st)).
Proof.
  intros [Hdk Hd Htk Ht Hdt Hro Hnd Hpts]. split; simpl; try done.
  - by apply dict_set_NoDup.
  - intros n t. destruct (decide (team_name = n)) as [->|Hne].
    + rewrite dict_get_set_eq. intros [= <-].
      exists (new_Team n). split; [by apply list_lookup_middle|done].
    + rewrite dict_get_set_ne by done. intros Hg.
      destruct (Ht _ _ Hg) as (T & HT & Hn). exists T. split; [|done].
      by apply lookup_app_l_Some.
  - intros r d Hr. destruct (Hdt _ _ Hr) as (T & HT & Hin).
    exists T. split; [by apply lookup_app_l_Some|done].
  - intros t T r [[_ HT]|[_ <-]]%lookup_snoc_Some Hin; [by eauto|].
    by apply elem_of_nil in Hin.
  - intros t T [[_ HT]|[_ <-]]%lookup_snoc_Some; [by eauto|]. constructor.
  - intros t T [[_ HT]|[_ <-]]%lookup_snoc_Some; [|done].
    rewrite (Hpts _ _ HT). by apply roster_points_ext.
Qed.

Lemma wf_add_driver name team_name st :
  wf st → wf (add_driver name team_name st).1.
Proof.
  intros Hwf. rewrite add_driver_cases.
  destruct (bool_decide (name = "") || bool_decide (team_name = "")); [done|].
  destruct (dict_get team_name (teams_dict st)) as [t|] eqn:Hg; simpl.
  - apply wf_registered_state; [by destruct st|].
    destruct (wf_teams _ Hwf _ _ Hg) as (T & HT & _). by exists T.
  - apply wf_registered_state; [by apply wf_new_team|].
    exists (new_Team team_name). by apply list_lookup_middle.
Qed.

Lemma wf_step c st : wf st → wf (step c st).
Proof.
  destruct c; cbn [step];
    auto using wf_add_race, wf_add_driver, wf_record_race_result,
               wf_display_driver_position.
Qed.

Lemma run_snoc cs c st : run (cs ++ [c]) st = step c (run cs st).
Proof. unfold run. by rewrite foldl_snoc. Qed.

Lemma wf_run cs : wf (run cs empty_registry).
Proof.
  induction cs as [|c cs IH] using rev_ind; [apply wf_empty|].
  rewrite run_snoc. by apply wf_step.
Qed.

Lemma recorded_results_snoc cs c st :
  recorded_results (cs ++ [c]) st =
  recorded_results cs st ++ result_of c (run cs st).
Proof.
  revert st. induction cs as [|c' cs IH]; intros st; simpl.
  - by rewrite app_nil_r.
  - by rewrite IH, app_assoc.
Qed.

(** ** Points, command by command *)

Lemma filter_iff_elem {A} (P Q : A → Prop) `{∀ x, Decision (P x)}
    `{∀ x, Decision (Q x)} (l : list A) :
  (∀ x, x ∈ l → P x ↔ Q x) → filter P l = filter Q l.
Proof.
  induction l as [|x l IH]; intros HPQ; [done|].
  rewrite !filter_cons, IH by (intros; apply HPQ; by right).
  destruct (decide (P x)), (decide (Q x)); try done;
    exfalso; specialize (HPQ x ltac:(left)); tauto.
Qed.

Lemma awarded_app l k : awarded (l ++ k) = awarded l + awarded k.
Proof.
  induction l as [|res l IH]; unfold awarded in *; simpl; [done|].
  rewrite IH. lia.
Qed.

Lemma display_points_of_driver st r :
  points_of_driver (display_driver_position st).1 r = points_of_driver st r.
Proof.
  unfold display_driver_position, points_of_driver. simpl.
  pose proof (assign_positions_field driver_points (driver_heap st)
    (enumerate 1 (sorted_desc (points_of_driver st)
                    (dict_values (drivers_dict st)))) r (λ _ _, eq_refl)) as Hf.
  unfold points_of_driver in Hf.
  destruct (assign_positions _ _ !! r), (driver_heap st !! r);
    simpl in *; congruence.
Qed.

Lemma registered_points_of_driver st name t teams teams_d r :
  points_of_driver (registered_state st name t teams teams_d) r =
  points_of_driver st r.
Proof.
  unfold points_of_driver. simpl.
  destruct (driver_heap st !! r) as [d|] eqn:Hr.
  - by rewrite lookup_app_l_Some with (x := d).
  - apply lookup_ge_None in Hr.
    destruct ((driver_heap st ++ [new_Driver name t]) !! r) as [d|] eqn:Hr';
      [|done].
    apply lookup_snoc_Some in Hr' as [[Hlt _]|[_ <-]]; [lia|done].
Qed.

Lemma registered_points_of_team st name t teams teams_d t' :
  points_of_team (registered_state st name t teams teams_d) t' =
  from_option team_points 0 (teams !! t').
Proof.
  unfold points_of_team. simpl. rewrite list_lookup_alter.
  case_decide; [subst|done]. by destruct (teams !! t').
Qed.

Lemma step_points_of_driver c st r :
  wf st →
  points_of_driver (step c st) r =
  points_of_driver st r +
  awarded (filter (λ res, result_driver res = r) (result_of c st)).
Proof.
  intros Hwf. destruct c as [name|name tn|rn dn pos| |]; cbn [step result_of].
  - unfold add_race, points_of_driver, awarded.
    case_bool_decide; simpl; lia.
  - rewrite add_driver_cases.
    destruct (_ || _); [unfold awarded; simpl; lia|].
    destruct (dict_get tn (teams_dict st)); simpl;
      rewrite registered_points_of_driver; unfold awarded; simpl; lia.
  - rewrite record_race_result_cases.
    destruct (py_int pos) as [p|]; [|unfold awarded; simpl; lia].
    destruct (p <? 1); [unfold awarded; simpl; lia|].
    destruct (dict_get rn (race_dict st)) as [race|];
      [|unfold awarded; simpl; lia].
    destruct (dict_get dn (drivers_dict st)) as [r0|] eqn:Hg;
      [|unfold awarded; simpl; lia].
    destruct (wf_drivers _ Hwf _ _ Hg) as (d & Hd & _). rewrite Hd.
    cbn [fst snd]. rewrite filter_cons, filter_nil. cbn [result_driver].
    destruct (decide (r0 = r)) as [<-|Hne].
    + rewrite (recorded_state_points_eq _ _ _ _ _ _ d) by done.
      unfold awarded. simpl. lia.
    + rewrite recorded_state_points_ne by done. unfold awarded. simpl. lia.
  - rewrite display_points_of_driver. unfold awarded; simpl; lia.
  - unfold awarded; simpl; lia.
Qed.

Lemma step_points_of_team c st t :
  wf st →
  points_of_team (step c st) t =
  points_of_team st t +
  awarded (filter (λ res, team_of_driver st (result_driver res) = Some t)
             (result_of c st)).
Proof.
  intros Hwf. destruct c as [name|name tn|rn dn pos| |]; cbn [step result_of].
  - unfold add_race, points_of_team, awarded.
    case_bool_decide; simpl; lia.
  - rewrite add_driver_cases.
    destruct (_ || _); [unfold awarded; simpl; lia|].
    destruct (dict_get tn (teams_dict st)); simpl;
      rewrite registered_points_of_team; unfold awarded; simpl.
    + unfold points_of_team. lia.
    + unfold points_of_team.
      destruct (team_heap st !! t) as [T|] eqn:HT.
      * rewrite lookup_app_l_Some with (x := T) by done. simpl. lia.
      * apply lookup_ge_None in HT.
        destruct ((team_heap st ++ [new_Team tn]) !! t) as [T|] eqn:HT';
          [|simpl; lia].
        apply lookup_snoc_Some in HT' as [[Hlt _]|[_ <-]]; [lia|simpl; lia].
  - rewrite record_race_result_cases.
    destruct (py_int pos) as [p|]; [|unfold awarded; simpl; lia].
    destruct (p <? 1); [unfold awarded; simpl; lia|].
    destruct (dict_get rn (race_dict st)) as [race|];
      [|unfold awarded; simpl; lia].
    destruct (dict_get dn (drivers_dict st)) as [r0|] eqn:Hg;
      [|unfold awarded; simpl; lia].
    destruct (wf_drivers _ Hwf _ _ Hg) as (d & Hd & _). rewrite Hd.
    destruct (wf_driver_team _ Hwf _ _ Hd) as (T & HT & _).
    cbn [fst snd]. rewrite filter_cons, filter_nil. cbn [result_driver].
    unfold team_of_driver. rewrite Hd. simpl.
    unfold points_of_team. simpl. rewrite list_lookup_alter.
    destruct (decide (driver_team d = t)) as [<-|Hne].
    + rewrite decide_True by done. rewrite HT. unfold awarded. simpl. lia.
    + rewrite decide_False by congruence. unfold awarded. simpl. lia.
  - unfold awarded, points_of_team; simpl; lia.
  - unfold awarded; simpl; lia.
Qed.

(** Objects never change team, and the heap only grows. *)
Lemma step_team_of_driver c st r t :
  team_of_driver st r = Some t → team_of_driver (step c st) r = Some t.
Proof.
  unfold team_of_driver. intros Ht.
  destruct (driver_heap st !! r) as [d|] eqn:Hd; [|done].
  injection Ht as <-.
  destruct c as [name|name tn|rn dn pos| |]; cbn [step].
  - unfold add_race. case_bool_decide; simpl; by rewrite Hd.
  - rewrite add_driver_cases.
    destruct (_ || _); [simpl; by rewrite Hd|].
    destruct (dict_get tn (teams_dict st)); simpl;
      by rewrite lookup_app_l_Some with (x := d).
  - rewrite record_race_result_cases.
    destruct (py_int pos) as [p|]; [|simpl; by rewrite Hd].
    destruct (p <? 1); [simpl; by rewrite Hd|].
    destruct (dict_get rn (race_dict st)) as [race|]; [|simpl; by rewrite Hd].
    destruct (dict_get dn (drivers_dict st)) as [r0|]; [|simpl; by rewrite Hd].
    destruct (driver_heap st !! r0) as [d0|]; simpl.
    + rewrite (lookup_alter_fwd _ _ _ _ d) by done. simpl. by case_decide.
    + by rewrite Hd.
  - destruct (assign_positions_fwd _
      (enumerate 1 (sorted_desc (points_of_driver st)
                      (dict_values (drivers_dict st)))) _ _ Hd)
      as (d' & Hd' & _ & Hteam & _).
    unfold display_driver_position. simpl. rewrite Hd'. simpl. congruence.
  - simpl. by rewrite Hd.
Qed.

Lemma result_of_live c st res :
  wf st → res ∈ result_of c st →
  is_Some (team_of_driver st (result_driver res)).
Proof.
  intros Hwf. destruct c as [name|name tn|rn dn pos| |]; cbn [result_of];
    try (by intros ?%elem_of_nil).
  rewrite record_race_result_cases.
  destruct (py_int pos) as [p|]; [|by intros ?%elem_of_nil].
  destruct (p <? 1); [by intros ?%elem_of_nil|].
  destruct (dict_get rn (race_dict st)) as [race|];
    [|by intros ?%elem_of_nil].
  destruct (dict_get dn (drivers_dict st)) as [r0|] eqn:Hg;
    [|by intros ?%elem_of_nil].
  simpl. intros ->%list_elem_of_singleton. simpl.
  destruct (wf_drivers _ Hwf _ _ Hg) as (d & Hd & _).
  unfold team_of_driver. rewrite Hd. by eexists.
Qed.

(** ** The ledger of a session

    After any commands from the empty registry, every result ever created
    names a live driver, each driver's points are the awards of its own
    results, and each team's points the awards of its drivers' results. *)
Lemma session_ledger cs :
  let st := run cs empty_registry in
  let log := recorded_results cs empty_registry in
  (∀ res, res ∈ log → is_Some (team_of_driver st (result_driver res))) ∧
  (∀ r, points_of_driver st r =
        awarded (filter (λ res, result_driver res = r) log)) ∧
  (∀ t, points_of_team st t =
        awarded (filter (λ res, team_of_driver st (result_driver res) = Some t)
                   log)).
Proof.
  induction cs as [|c cs IH] using rev_ind.
  - simpl. split_and!; [by intros ? ?%elem_of_nil|done|done].
  - simpl in *. destruct IH as (Hlive & Hdrv & Hteam).
    rewrite run_snoc, recorded_results_snoc.
    pose proof (wf_run cs) as Hwf.
    set (st := run cs empty_registry) in *.
    set (log := recorded_results cs empty_registry) in *.
    assert (Hlive' : ∀ res, res ∈ log ++ result_of c st →
              is_Some (team_of_driver st (result_driver res))).
    { intros res [Hin|Hin]%elem_of_app; [by apply Hlive|].
      by eapply result_of_live. }
    assert (Hsame : ∀ res t, res ∈ log ++ result_of c st →
              team_of_driver (step c st) (result_driver res) = Some t ↔
              team_of_driver st (result_driver res) = Some t).
    { intros res t [t0 Ht0]%Hlive'.
      rewrite Ht0, (step_team_of_driver c st _ t0 Ht0). done. }
    split_and!.
    + intros res [t0 Ht0]%Hlive'. exists t0.
      by apply step_team_of_driver.
    + intros r. rewrite step_points_of_driver by done.
      by rewrite filter_app, awarded_app, Hdrv.
    + intros t. rewrite step_points_of_team by done.
      rewrite (filter_iff_elem
        (λ res, team_of_driver (step c st) (result_driver res) = Some t)
        (λ res, team_of_driver st (result_driver res) = Some t))
        by (intros; by apply Hsame).
      by rewrite filter_app, awarded_app, Hteam.
Qed.

Lemma scale_points_outside p : p < 1 ∨ 10 < p → scale_points p = 0.
Proof.
  intros Hp. unfold scale_points, POINT_SCALE. simpl.
  repeat (case_decide; [lia|]). done.
Qed.

(** ** A successful recording *)

Lemma record_race_result_ok st race_name driver_name position pos race r :
  wf st → py_int position = Some pos → 1 ≤ pos →
  dict_get race_name (race_dict st) = Some race →
  dict_get driver_name (drivers_dict st) = Some r →
  ∃ d T, driver_heap st !! r = Some d ∧
         team_heap st !! driver_team d = Some T ∧
         r ∈ team_drivers T ∧
         record_race_result race_name driver_name position st =
         (recorded_state st race_name race r (driver_team d) pos,
          Recorded (mkRaceResult r pos)).
Proof.
  intros Hwf Hp Hpos Hrace Hdrv.
  destruct (wf_drivers _ Hwf _ _ Hdrv) as (d & Hd & _).
  destruct (wf_driver_team _ Hwf _ _ Hd) as (T & HT & Hin).
  exists d, T. split_and!; try done.
  rewrite record_race_result_cases, Hp, Hrace, Hdrv, Hd.
  by rewrite (proj2 (Z.ltb_ge pos 1)).
Qed.

Lemma record_race_result_Recorded st race_name driver_name position st' res :
  record_race_result race_name driver_name position st = (st', Recorded res) →
  ∃ race, py_int position = Some (result_position res) ∧
          1 ≤ result_position res ∧
          dict_get race_name (race_dict st) = Some race ∧
          dict_get driver_name (drivers_dict st) = Some (result_driver res).
Proof.
  rewrite record_race_result_cases.
  destruct (py_int position) as [pos|]; [|done].
  destruct (Z.ltb_spec pos 1); [done|].
  destruct (dict_get race_name (race_dict st)) as [race|]; [|done].
  destruct (dict_get driver_name (drivers_dict st)) as [r|]; [|done].
  intros [= _ <-]. by exists race.
Qed.

Lemma record_race_result_failed st race_name driver_name position :
  (∀ res, (record_race_result race_name driver_name position st).2
          ≠ Recorded res) →
  (record_race_result race_name driver_name position st).1 = st.
Proof.
  rewrite record_race_result_cases.
  destruct (py_int position) as [pos|]; [|done].
  destruct (pos <? 1); [done|].
  destruct (dict_get race_name (race_dict st)) as [race|]; [|done].
  destruct (dict_get driver_name (drivers_dict st)) as [r|]; [|done].
  intros Hne. by destruct (Hne (mkRaceResult r pos)).
Qed.

(** * The claims *)

(** C1.  After any session, every driver object's cumulative points are the
    sum of the scale's values at the positions of the results recorded for
    that driver.  The scale gives 25, 18, 15, 12, 10, 8, 6, 4, 2, 1 at
    positions 1 to 10 and 0 at every other position; a recording at a
    position above 10 succeeds, appends its result to the race and leaves
    every driver's and team's points as they were. *)
Theorem driver_points_are_scale_sums (cs : list command) :
  let st := run cs empty_registry in
  let log := recorded_results cs empty_registry in
  (∀ r d, driver_heap st !! r = Some d →
     driver_points d = awarded (filter (λ res, result_driver res = r) log)) ∧
  (scale_points 1 = 25 ∧ scale_points 2 = 18 ∧ scale_points 3 = 15 ∧
   scale_points 4 = 12 ∧ scale_points 5 = 10 ∧ scale_points 6 = 8 ∧
   scale_points 7 = 6 ∧ scale_points 8 = 4 ∧ scale_points 9 = 2 ∧
   scale_points 10 = 1) ∧
  (∀ pos, pos < 1 ∨ 10 < pos → scale_points pos = 0) ∧
  (∀ rname dname position pos race r,
     py_int position = Some pos → 10 < pos →
     dict_get rname (race_dict st) = Some race →
     dict_get dname (drivers_dict st) = Some r →
     ∃ st',
       record_race_result rname dname position st =
         (st', Recorded (mkRaceResult r pos)) ∧
       dict_get rname (race_dict st') =
         Some (mkRace (race_name race)
                 (race_results race ++ [mkRaceResult r pos])) ∧
       (∀ r', points_of_driver st' r' = points_of_driver st r') ∧
       (∀ t, points_of_team st' t = points_of_team st t)).
Proof.
  intros st log. split_and!; try reflexivity.
  - intros r d Hd.
    destruct (session_ledger cs) as (_ & Hdrv & _).
    specialize (Hdrv r). unfold points_of_driver in Hdrv.
    fold st in Hdrv. by rewrite Hd in Hdrv.
  - apply scale_points_outside.
  - intros rn dn position pos race r Hp Hpos Hrace Hdrv.
    destruct (record_race_result_ok st rn dn position pos race r)
      as (d & T & Hd & HT & _ & Hrec); try done; [apply wf_run|lia|].
    eexists. split; [exact Hrec|]. split_and!.
    + simpl. by rewrite dict_get_set_eq.
    + intros r'. destruct (decide (r' = r)) as [->|Hne].
      * rewrite (recorded_state_points_eq _ _ _ _ _ _ d) by done.
        rewrite scale_points_outside by lia. lia.
      * by apply recorded_state_points_ne.
    + intros t. unfold points_of_team. simpl.
      rewrite scale_points_outside by lia. rewrite list_lookup_alter.
      case_decide; [subst|done]. rewrite HT. simpl. lia.
Qed.

Lemma driver_points_are_scale_sums_witness :
  driver_points (mkDriver "A" 0%nat 25 None) =
  awarded (filter (λ res, result_driver res = 0%nat)
             (recorded_results scenario empty_registry)).
Proof.
  apply (proj1 (driver_points_are_scale_sums scenario) 0%nat).
  reflexivity.
Defined.

(** C4.  After any session of registrations, recordings and standings
    queries, every team's cumulative points are the sum of the points
    awarded by the recorded results whose driver belongs to that team; they
    are also the total of the points of the drivers on its roster, and the
    roster holds exactly the drivers whose team it is. *)
Theorem team_points_are_driver_awards (cs : list command) :
  let st := run cs empty_registry in
  let log := recorded_results cs empty_registry in
  ∀ t T, team_heap st !! t = Some T →
    team_points T =
      awarded (filter (λ res, team_of_driver st (result_driver res) = Some t)
                 log) ∧
    team_points T = roster_points st (team_drivers T) ∧
    (∀ r, r ∈ team_drivers T ↔ team_of_driver st r = Some t).
Proof.
  intros st log t T HT. pose proof (wf_run cs) as Hwf. fold st in Hwf.
  split_and!.
  - destruct (session_ledger cs) as (_ & _ & Hteam).
    specialize (Hteam t). unfold points_of_team in Hteam at 1.
    fold st in Hteam. by rewrite HT in Hteam.
  - by apply (wf_team_points _ Hwf t).
  - intros r. unfold team_of_driver. split.
    + intros Hin. destruct (wf_roster _ Hwf _ _ _ HT Hin) as (d & -> & <-).
      done.
    + destruct (driver_heap st !! r) as [d|] eqn:Hd; [|done].
      intros [= <-]. destruct (wf_driver_team _ Hwf _ _ Hd) as (T' & HT' & Hin).
      by simplify_eq.
Qed.

Lemma team_points_are_driver_awards_witness :
  team_points (mkTeam "T1" 25 [0%nat]) =
    awarded (filter (λ res, team_of_driver (run scenario empty_registry)
                              (result_driver res) = Some 0%nat)
               (recorded_results scenario empty_registry)) ∧
  team_points (mkTeam "T1" 25 [0%nat]) =
    roster_points (run scenario empty_registry) [0%nat].
Proof.
  destruct (team_points_are_driver_awards scenario 0%nat
              (mkTeam "T1" 25 [0%nat]) eq_refl) as (H1 & H2 & _).
  split; [exact H1|exact H2].
Defined.

(** C5.  A successful recording changes three things and nothing else: the
    named race gets one result appended, the named driver's points grow by
    the scale's points for the position, and so do the points of that
    driver's team.  Every other race, driver object and team object, every
    other field of the three that changed, and the three dictionaries' keys
    and references are as before. *)
Theorem record_result_frame st rname dname position st' res :
  wf st →
  record_race_result rname dname position st = (st', Recorded res) →
  ∃ race d T,
    py_int position = Some (result_position res) ∧
    dict_get rname (race_dict st) = Some race ∧
    dict_get dname (drivers_dict st) = Some (result_driver res) ∧
    driver_heap st !! result_driver res = Some d ∧
    team_heap st !! driver_team d = Some T ∧
    let points := scale_points (result_position res) in
    (* the race *)
    dict_get rname (race_dict st') =
      Some (mkRace (race_name race) (race_results race ++ [res])) ∧
    (∀ rname', rname' ≠ rname →
       dict_get rname' (race_dict st') = dict_get rname' (race_dict st)) ∧
    dict_keys (race_dict st') = dict_keys (race_dict st) ∧
    (* the driver *)
    driver_heap st' !! result_driver res =
      Some (mkDriver (driver_name d) (driver_team d)
              (driver_points d + points) (driver_position d)) ∧
    (∀ r', r' ≠ result_driver res →
       driver_heap st' !! r' = driver_heap st !! r') ∧
    (* the team *)
    team_heap st' !! driver_team d =
      Some (mkTeam (team_name T) (team_points T + points) (team_drivers T)) ∧
    (∀ t', t' ≠ driver_team d → team_heap st' !! t' = team_heap st !! t') ∧
    (* the dictionaries *)
    drivers_dict st' = drivers_dict st ∧ teams_dict st' = teams_dict st.
Proof.
  intros Hwf Hrec.
  destruct (record_race_result_Recorded _ _ _ _ _ _ Hrec)
    as (race & Hp & Hpos & Hrace & Hdrv).
  destruct res as [r pos]. simpl in *.
  destruct (record_race_result_ok st rname dname position pos race r)
    as (d & T & Hd & HT & _ & Hrec'); try done.
  rewrite Hrec in Hrec'. injection Hrec' as ->.
  exists race, d, T. split_and!; try done; simpl.
  - by rewrite dict_get_set_eq.
  - intros rname' Hne. by rewrite dict_get_set_ne.
  - by rewrite dict_keys_set, Hrace.
  - by rewrite list_lookup_alter_eq, Hd.
  - intros r' Hne. by rewrite list_lookup_alter_ne.
  - by rewrite list_lookup_alter_eq, HT.
  - intros t' Hne. by rewrite list_lookup_alter_ne.
Qed.

Lemma wf_grid : wf grid.
Proof. apply wf_run. Qed.

Lemma record_result_frame_witness :
  ∃ race d T,
    py_int "3" = Some 3 ∧
    dict_get "R1" (race_dict grid) = Some race ∧
    dict_get "B" (drivers_dict grid) = Some 1%nat ∧
    driver_heap grid !! 1%nat = Some d ∧
    team_heap grid !! driver_team d = Some T ∧
    dict_get "R1"
      (race_dict (record_race_result "R1" "B" "3" grid).1) =
      Some (mkRace (race_name race)
              (race_results race ++ [mkRaceResult 1%nat 3])) ∧
    driver_heap (record_race_result "R1" "B" "3" grid).1 !! 1%nat =
      Some (mkDriver (driver_name d) (driver_team d) (driver_points d + 15)
              (driver_position d)) ∧
    team_heap (record_race_result "R1" "B" "3" grid).1 !! driver_team d =
      Some (mkTeam (team_name T) (team_points T + 15) (team_drivers T)).
Proof.
  destruct (record_result_frame grid "R1" "B" "3"
              (record_race_result "R1" "B" "3" grid).1
              (mkRaceResult 1%nat 3) wf_grid eq_refl)
    as (race & d & T & H1 & H2 & H3 & H4 & H5 & H6 & _ & _ & H7 & _ & H8 & _).
  exists race, d, T. split_and!; assumption.
Defined.

(** C7.  Recording is not idempotent.  For a registered race and driver and
    a position of at least 1, recording the same (race, driver, position)
    twice succeeds twice: the race ends with the result appended twice, and
    the driver and its team end with the scale's points added twice.  The
    second call changes the registry again. *)
Theorem record_result_twice st rname dname position pos race r :
  wf st → py_int position = Some pos → 1 ≤ pos →
  dict_get rname (race_dict st) = Some race →
  dict_get dname (drivers_dict st) = Some r →
  ∃ d T st1 st2,
    driver_heap st !! r = Some d ∧
    team_heap st !! driver_team d = Some T ∧
    record_race_result rname dname position st =
      (st1, Recorded (mkRaceResult r pos)) ∧
    record_race_result rname dname position st1 =
      (st2, Recorded (mkRaceResult r pos)) ∧
    st2 ≠ st1 ∧
    dict_get rname (race_dict st2) =
      Some (mkRace (race_name race)
              (race_results race ++
                 [mkRaceResult r pos; mkRaceResult r pos])) ∧
    driver_heap st2 !! r =
      Some (mkDriver (driver_name d) (driver_team d)
              (driver_points d + scale_points pos + scale_points pos)
              (driver_position d)) ∧
    team_heap st2 !! driver_team d =
      Some (mkTeam (team_name T)
              (team_points T + scale_points pos + scale_points pos)
              (team_drivers T)).
Proof.
  intros Hwf Hp Hpos Hrace Hdrv.
  destruct (record_race_result_ok st rname dname position pos race r)
    as (d & T & Hd & HT & _ & Hrec1); try done.
  set (st1 := recorded_state st rname race r (driver_team d) pos) in *.
  assert (Hwf1 : wf st1) by by apply wf_recorded_state.
  assert (Hrace1 : dict_get rname (race_dict st1) =
            Some (append_race_result (mkRaceResult r pos) race))
    by (simpl; by rewrite dict_get_set_eq).
  assert (Hd1 : driver_heap st1 !! r =
            Some (add_driver_points (scale_points pos) d))
    by (simpl; by rewrite list_lookup_alter_eq, Hd).
  destruct (record_race_result_ok st1 rname dname position pos _ r
              Hwf1 Hp Hpos Hrace1 Hdrv)
    as (d1 & T1 & Hd1' & _ & _ & Hrec2).
  rewrite Hd1 in Hd1'. injection Hd1' as <-. simpl in Hrec2.
  exists d, T, st1. eexists. split_and!; try done; simpl.
  - intros Heq. apply (f_equal (λ s, dict_get rname (race_dict s))) in Heq.
    simpl in Heq. rewrite !dict_get_set_eq in Heq.
    injection Heq as Heq. apply (f_equal length) in Heq.
    rewrite !length_app in Heq. simpl in Heq. lia.
  - rewrite dict_get_set_eq. unfold append_race_result. simpl.
    by rewrite <- app_assoc.
  - by rewrite !list_lookup_alter_eq, Hd.
  - by rewrite !list_lookup_alter_eq, HT.
Qed.

Lemma record_result_twice_witness :
  ∃ st2,
    (record_race_result "R1" "A" "1"
       (record_race_result "R1" "A" "1" grid).1).1 = st2 ∧
    dict_get "R1" (race_dict st2) =
      Some (mkRace "R1" [mkRaceResult 0%nat 1; mkRaceResult 0%nat 1]) ∧
    driver_heap st2 !! 0%nat = Some (mkDriver "A" 0%nat 50 None) ∧
    team_heap st2 !! 0%nat = Some (mkTeam "T1" 50 [0%nat]).
Proof.
  destruct (record_result_twice grid "R1" "A" "1" 1 (mkRace "R1" []) 0%nat
              wf_grid eq_refl ltac:(done) eq_refl eq_refl)
    as (d & T & st1 & st2 & Hd & HT & H1 & H2 & _ & H3 & H4 & H5).
  injection Hd as <-. injection HT as <-.
  exists st2. rewrite H1. simpl. rewrite H2. by split_and!.
Defined.

(** C2.  A recording fails, and leaves the whole registry as it was, in each
    of these cases: [int(position)] raises [ValueError] (a position that is
    not a number); the position is below 1, reported as "Invalid position."
    (position 0 is one such); the position is valid and the race name or the
    driver name is not registered, reported as "Invalid driver name or race
    name.".  Whenever no result is recorded the registry is unchanged. *)
Theorem record_result_failures st rname dname position :
  (py_int position = None →
   record_race_result rname dname position st = (st, Raised ValueError)) ∧
  (∀ pos, py_int position = Some pos → pos < 1 →
   record_race_result rname dname position st =
     (st, Printed "Invalid position.")) ∧
  (∀ pos, py_int position = Some pos → 1 ≤ pos →
   dict_get rname (race_dict st) = None ∨
   dict_get dname (drivers_dict st) = None →
   record_race_result rname dname position st =
     (st, Printed "Invalid driver name or race name.")) ∧
  py_int "0" = Some 0 ∧
  ((∀ res, (record_race_result rname dname position st).2 ≠ Recorded res) →
   (record_race_result rname dname position st).1 = st).
Proof.
  split_and!.
  - intros Hp. by rewrite record_race_result_cases, Hp.
  - intros pos Hp Hlt. rewrite record_race_result_cases, Hp.
    by rewrite (proj2 (Z.ltb_lt pos 1)).
  - intros pos Hp Hle Hmiss. rewrite record_race_result_cases, Hp.
    rewrite (proj2 (Z.ltb_ge pos 1)) by done.
    destruct Hmiss as [-> | ->]; [done|].
    by destruct (dict_get rname (race_dict st)).
  - reflexivity.
  - apply record_race_result_failed.
Qed.

Lemma record_result_failures_witness :
  record_race_result "R1" "A" "abc" grid = (grid, Raised ValueError) ∧
  record_race_result "R1" "A" "0" grid = (grid, Printed "Invalid position.") ∧
  record_race_result "R9" "A" "1" grid =
    (grid, Printed "Invalid driver name or race name.") ∧
  record_race_result "R1" "Z" "1" grid =
    (grid, Printed "Invalid driver name or race name.").
Proof.
  split_and!.
  - apply (proj1 (record_result_failures grid "R1" "A" "abc")). reflexivity.
  - apply (proj1 (proj2 (record_result_failures grid "R1" "A" "0")) 0);
      [reflexivity|lia].
  - apply (proj1 (proj2 (proj2 (record_result_failures grid "R9" "A" "1"))) 1);
      [reflexivity|lia|left; reflexivity].
  - apply (proj1 (proj2 (proj2 (record_result_failures grid "R1" "Z" "1"))) 1);
      [reflexivity|lia|right; reflexivity].
Defined.

(** C8, as stated: the report of an unregistered name tells which of the two
    names it was.  No reading of the reports does: recording for a missing
    race and recording for a missing driver print the same line. *)
Lemma unknown_entity_not_named : ¬ ∃ decode, names_missing_entity decode.
Proof.
  intros [decode Hdec].
  destruct (Hdec grid "R9" "A" "1" 1 eq_refl ltac:(done)) as [Hrace _].
  destruct (Hdec grid "R1" "Z" "1" 1 eq_refl ltac:(done)) as [_ Hdriver].
  specialize (Hrace eq_refl ltac:(by eexists)).
  specialize (Hdriver eq_refl ltac:(by eexists)).
  simpl in Hrace, Hdriver. congruence.
Qed.

(** C8, amended.  When the position is valid and the race name, the driver
    name or both are not registered, the recording prints the one line
    "Invalid driver name or race name." and changes nothing. *)
Theorem unknown_entity_single_report st rname dname position pos :
  py_int position = Some pos → 1 ≤ pos →
  dict_get rname (race_dict st) = None ∨
  dict_get dname (drivers_dict st) = None →
  record_race_result rname dname position st =
    (st, Printed "Invalid driver name or race name.").
Proof.
  intros Hp Hle Hmiss. rewrite record_race_result_cases, Hp.
  rewrite (proj2 (Z.ltb_ge pos 1)) by done.
  destruct Hmiss as [-> | ->]; [done|].
  by destruct (dict_get rname (race_dict st)).
Qed.

Lemma unknown_entity_single_report_witness :
  record_race_result "R9" "A" "1" grid =
    (grid, Printed "Invalid driver name or race name.") ∧
  record_race_result "R1" "Z" "1" grid =
    (grid, Printed "Invalid driver name or race name.") ∧
  record_race_result "R9" "Z" "1" grid =
    (grid, Printed "Invalid driver name or race name.").
Proof.
  split_and!.
  - apply (unknown_entity_single_report grid "R9" "A" "1" 1);
      [reflexivity|lia|left; reflexivity].
  - apply (unknown_entity_single_report grid "R1" "Z" "1" 1);
      [reflexivity|lia|right; reflexivity].
  - apply (unknown_entity_single_report grid "R9" "Z" "1" 1);
      [reflexivity|lia|left; reflexivity].
Defined.

(** C9.  Registering a name again on the team it is already on stores a
    fresh driver object (zero points, no position) under the name, in the
    name's old slot of the dictionary.  The object stored before is left as
    it was, points included, and stays on the team's roster; the new object
    is appended to that roster, which then lists at least two objects of
    that name.  The team's points do not change. *)
Theorem reregister_driver st name team_nm r d t :
  wf st → name ≠ "" → team_nm ≠ "" →
  dict_get name (drivers_dict st) = Some r →
  driver_heap st !! r = Some d →
  dict_get team_nm (teams_dict st) = Some t →
  driver_team d = t →
  let st' := (add_driver name team_nm st).1 in
  let r' := length (driver_heap st) in
  ∃ T,
    team_heap st !! t = Some T ∧
    (add_driver name team_nm st).2 = Done ∧
    dict_get name (drivers_dict st') = Some r' ∧
    dict_keys (drivers_dict st') = dict_keys (drivers_dict st) ∧
    r' ≠ r ∧
    driver_heap st' !! r' = Some (mkDriver name t 0 None) ∧
    driver_heap st' !! r = Some d ∧
    driver_name d = name ∧
    r ∈ team_drivers T ∧
    team_heap st' !! t =
      Some (mkTeam (team_name T) (team_points T) (team_drivers T ++ [r'])) ∧
    length (filter (λ x, name_of_driver st' x = Some name)
              (team_drivers T ++ [r'])) =
      S (length (filter (λ x, name_of_driver st x = Some name)
                   (team_drivers T))) ∧
    (2 ≤ length (filter (λ x, name_of_driver st' x = Some name)
                   (team_drivers T ++ [r'])))%nat.
Proof.
  intros Hwf Hname Hteam Hr Hd Ht Hdt st' r'.
  destruct (wf_drivers _ Hwf _ _ Hr) as (d0 & Hd0 & Hn).
  assert (d0 = d) as -> by congruence.
  destruct (wf_driver_team _ Hwf _ _ Hd) as (T & HT & Hin).
  rewrite Hdt in HT. exists T.
  assert (Hlt : (r < r')%nat) by (by apply lookup_lt_Some in Hd).
  subst st'. rewrite add_driver_cases.
  rewrite !bool_decide_eq_false_2 by done. simpl. rewrite Ht. simpl.
  assert (Hr_new : (driver_heap st ++ [new_Driver name t]) !! r = Some d)
    by by apply lookup_app_l_Some.
  assert (Hr'_new : (driver_heap st ++ [new_Driver name t]) !! r'
                    = Some (new_Driver name t))
    by by apply list_lookup_middle.
  assert (Hcount :
    length (filter (λ x, name_of_driver
                           (registered_state st name t (team_heap st)
                              (teams_dict st)) x = Some name)
              (team_drivers T ++ [r'])) =
    S (length (filter (λ x, name_of_driver st x = Some name)
                 (team_drivers T)))).
  { rewrite filter_app, length_app, filter_cons, filter_nil.
    rewrite decide_True
      by (unfold name_of_driver; simpl; by rewrite Hr'_new).
    rewrite (filter_iff_elem _ (λ x, name_of_driver st x = Some name));
      [simpl; lia|].
    intros x Hx. destruct (wf_roster _ Hwf _ _ _ HT Hx) as (dx & Hdx & _).
    unfold name_of_driver. simpl.
    by rewrite (lookup_app_l_Some _ _ _ dx), Hdx. }
  split_and!; try done.
  - by rewrite dict_get_set_eq.
  - by rewrite dict_keys_set, Hr.
  - lia.
  - by rewrite list_lookup_alter_eq, HT.
  - rewrite Hcount.
    assert (Hin' : r ∈ filter (λ x, name_of_driver st x = Some name)
                         (team_drivers T)).
    { apply list_elem_of_filter. split; [|done]. unfold name_of_driver.
      rewrite Hd. simpl. by rewrite Hn. }
    destruct (filter _ (team_drivers T)); [by apply elem_of_nil in Hin'|].
    simpl. lia.
Qed.

Lemma reregister_driver_witness :
  dict_get "A" (drivers_dict twice_registered) = Some 2%nat ∧
  driver_heap twice_registered !! 2%nat = Some (mkDriver "A" 0%nat 0 None) ∧
  driver_heap twice_registered !! 0%nat = Some (mkDriver "A" 0%nat 25 None) ∧
  team_heap twice_registered !! 0%nat = Some (mkTeam "T1" 25 [0%nat; 2%nat]).
Proof.
  destruct (reregister_driver (record_race_result "R1" "A" "1" grid).1
              "A" "T1" 0%nat (mkDriver "A" 0%nat 25 None) 0%nat)
    as (T & HT & _ & H1 & _ & _ & H2 & H3 & _ & _ & H4 & _ & _);
    [apply wf_record_race_result, wf_grid|done|done
    |reflexivity|reflexivity|reflexivity|reflexivity|].
  injection HT as <-. by split_and!.
Defined.

(** ** Standings *)

Lemma wf_drivers_values_NoDup st : wf st → NoDup (dict_values (drivers_dict st)).
Proof.
  intros Hwf. unfold dict_values.
  pose proof (wf_drivers_keys _ Hwf) as Hk.
  apply NoDup_fmap_2_strong; [|by apply NoDup_fmap_1 in Hk].
  intros [k1 r1] [k2 r2] H1 H2 Heq. simpl in Heq. subst r2.
  apply (elem_dict_get _ _ _ Hk) in H1, H2.
  destruct (wf_drivers _ Hwf _ _ H1) as (d1 & Hd1 & <-).
  destruct (wf_drivers _ Hwf _ _ H2) as (d2 & Hd2 & <-).
  congruence.
Qed.

Lemma wf_drivers_values_live st r :
  wf st → r ∈ dict_values (drivers_dict st) →
  ∃ d, driver_heap st !! r = Some d.
Proof.
  intros Hwf Hin.
  apply (elem_dict_values _ _ (wf_drivers_keys _ Hwf)) in Hin as [k Hk].
  destruct (wf_drivers _ Hwf _ _ Hk) as (d & Hd & _). by exists d.
Qed.

(** C3.  After any session, the standings list every registered driver
    once, in non-increasing order of points.  The only effect is on the
    [position] field of the listed drivers: the driver at index [i] of the
    list (counted from 0) gets position [i + 1], so the positions are 1 to
    N.  Every other field, every other driver object, the teams, the races
    and the dictionaries are as before.  With no driver registered the list
    is empty and the registry is unchanged. *)
Theorem driver_standings_spec (cs : list command) :
  let st := run cs empty_registry in
  let st' := (display_driver_position st).1 in
  let out := (display_driver_position st).2 in
  out ≡ₚ dict_values (drivers_dict st) ∧
  length out = length (drivers_dict st) ∧
  NoDup out ∧
  StronglySorted (desc (points_of_driver st')) out ∧
  (∀ (i : nat) r, out !! i = Some r →
     ∃ d, driver_heap st !! r = Some d ∧
          driver_heap st' !! r =
            Some (mkDriver (driver_name d) (driver_team d) (driver_points d)
                    (Some (Z.of_nat i + 1)))) ∧
  (∀ r, r ∉ out → driver_heap st' !! r = driver_heap st !! r) ∧
  length (driver_heap st') = length (driver_heap st) ∧
  team_heap st' = team_heap st ∧
  drivers_dict st' = drivers_dict st ∧
  teams_dict st' = teams_dict st ∧
  race_dict st' = race_dict st ∧
  (drivers_dict st = [] → out = [] ∧ st' = st).
Proof.
  intros st st' out. pose proof (wf_run cs) as Hwf. fold st in Hwf.
  assert (Hperm : out ≡ₚ dict_values (drivers_dict st))
    by apply sorted_desc_perm.
  assert (Hnd : NoDup out)
    by (rewrite Hperm; by apply wf_drivers_values_NoDup).
  split_and!; try done.
  - rewrite Hperm. unfold dict_values. by rewrite length_fmap.
  - subst out. unfold display_driver_position. cbn [snd].
    rewrite (sorted_desc_ext _ (points_of_driver st')).
    + apply sorted_desc_sorted.
    + intros r _. symmetry. apply display_points_of_driver.
  - intros i r Hi.
    destruct (wf_drivers_values_live st r Hwf) as [d Hd].
    { rewrite <- Hperm. by eapply list_elem_of_lookup_2. }
    exists d. split; [done|].
    subst st'. unfold display_driver_position. cbn [fst driver_heap
      with_driver_heap].
    rewrite (assign_positions_at _ _ (1 + Z.of_nat i) r).
    + rewrite Hd. simpl. unfold set_driver_position. do 3 f_equal. lia.
    + by rewrite enumerate_snd.
    + apply (list_elem_of_lookup_2 _ i). rewrite enumerate_lookup.
      change (sorted_desc _ _) with out. by rewrite Hi.
  - intros r Hr. subst st'. unfold display_driver_position.
    cbn [fst driver_heap with_driver_heap].
    apply assign_positions_other. by rewrite enumerate_snd.
  - apply assign_positions_length.
  - intros Hempty. subst out st'. unfold display_driver_position.
    rewrite Hempty. simpl. split; [done|]. by destruct st.
Qed.

(** C6.  The team standings pair every registered team with a rank: the
    ranks are 1, 2, ..., N in this order for N registered teams (no gap, no
    repeat), the teams are all the registered ones in non-increasing order
    of points, and the registry is returned as it was. *)
Theorem team_standings_spec (st : Registry) :
  let out := (display_team_standings st).2 in
  (display_team_standings st).1 = st ∧
  out.*1 = seqZ 1 (Z.of_nat (length (teams_dict st))) ∧
  NoDup out.*1 ∧
  out.*2 ≡ₚ dict_values (teams_dict st) ∧
  StronglySorted (desc (points_of_team st)) out.*2 ∧
  (∀ (i : nat) rank t, out !! i = Some (rank, t) → rank = Z.of_nat i + 1).
Proof.
  intros out. subst out. unfold display_team_standings. cbn [fst snd].
  rewrite enumerate_fst, enumerate_snd, sorted_desc_length.
  unfold dict_values at 1. rewrite length_fmap.
  split_and!; try done.
  - apply NoDup_seqZ.
  - apply sorted_desc_perm.
  - apply sorted_desc_sorted.
  - intros i rank t. rewrite enumerate_lookup.
    destruct (_ !! i); [|done]. simpl. intros [= <- _]. lia.
Qed.

Lemma driver_standings_spec_witness :
  (display_driver_position (run scenario empty_registry)).2 !! 1%nat
    = Some 1%nat ∧
  driver_heap (display_driver_position (run scenario empty_registry)).1
    !! 1%nat = Some (mkDriver "B" 1%nat 18 (Some 2)).
Proof.
  destruct (driver_standings_spec scenario)
    as (_ & _ & _ & _ & Hpos & _).
  destruct (Hpos 1%nat 1%nat eq_refl) as (d & Hd & Hd').
  injection Hd as <-. split; [reflexivity|exact Hd'].
Defined.

Lemma team_standings_spec_witness :
  (display_team_standings (run scenario empty_registry)).2.*1 = [1; 2] ∧
  (display_team_standings (run scenario empty_registry)).2 !! 1%nat
    = Some (2, 1%nat).
Proof.
  destruct (team_standings_spec (run scenario empty_registry))
    as (_ & Hranks & _ & _ & _ & Hrank).
  split; [exact Hranks|].
  specialize (Hrank 1%nat 2 1%nat eq_refl). reflexivity.
Defined.

(** ** Tie order *)

Lemma step_drivers_keys c st :
  dict_keys (drivers_dict (step c st)) =
  foldl note_name (dict_keys (drivers_dict st)) (registered_name c).
Proof.
  destruct c as [name|name tn|rn dn pos| |]; cbn [step registered_name].
  - unfold add_race. by case_bool_decide.
  - rewrite add_driver_cases.
    destruct (_ || _); [done|].
    assert (Hkeys : dict_keys (dict_set name (length (driver_heap st))
                                 (drivers_dict st)) =
                    note_name (dict_keys (drivers_dict st)) name).
    { rewrite dict_keys_set. unfold note_name.
      destruct (dict_get name (drivers_dict st)) as [r|] eqn:Hg.
      - rewrite decide_True; [done|].
        apply dict_get_elem, (list_elem_of_fmap_2 fst) in Hg. done.
      - apply dict_get_None in Hg. by rewrite decide_False. }
    by destruct (dict_get tn (teams_dict st)).
  - rewrite record_race_result_cases.
    destruct (py_int pos) as [p|]; [|done].
    destruct (p <? 1); [done|].
    destruct (dict_get rn (race_dict st)) as [race|]; [|done].
    destruct (dict_get dn (drivers_dict st)) as [r0|]; [|done].
    by destruct (driver_heap st !! r0).
  - done.
  - done.
Qed.

Lemma run_drivers_keys cs :
  dict_keys (drivers_dict (run cs empty_registry)) = registration_order cs.
Proof.
  unfold registration_order.
  induction cs as [|c cs IH] using rev_ind; [done|].
  by rewrite run_snoc, step_drivers_keys, IH, bind_app, foldl_app, bind_singleton.
Qed.

Lemma wf_drivers_names st :
  wf st →
  name_of_driver st <$> dict_values (drivers_dict st) =
  Some <$> dict_keys (drivers_dict st).
Proof.
  intros Hwf. pose proof (wf_drivers_keys _ Hwf) as Hk.
  assert (Hall : ∀ k r, (k, r) ∈ drivers_dict st →
                        name_of_driver st r = Some k).
  { intros k r Hin%(elem_dict_get _ _ _ Hk).
    destruct (wf_drivers _ Hwf _ _ Hin) as (d & Hd & <-).
    unfold name_of_driver. by rewrite Hd. }
  clear Hk. unfold dict_values, dict_keys.
  induction (drivers_dict st) as [|[k r] l IH]; [done|].
  rewrite !fmap_cons. simpl. rewrite (Hall k r) by left.
  f_equal. apply IH. intros; apply Hall; by right.
Qed.

(** C10.  Ties are broken by the driver dictionary's order.  For every
    points total, the drivers of that total appear in the standings in the
    order they have in [drivers_dict].  That order is the one in which the
    driver names were first registered: read by name, the dictionary's
    drivers are the registered names, each at its first registration.  The
    tie order is thus fixed by the session alone. *)
Theorem driver_standings_ties (cs : list command) :
  let st := run cs empty_registry in
  let out := (display_driver_position st).2 in
  (∀ p, filter (λ r, points_of_driver st r = p) out =
        filter (λ r, points_of_driver st r = p)
          (dict_values (drivers_dict st))) ∧
  name_of_driver st <$> dict_values (drivers_dict st) =
    Some <$> registration_order cs.
Proof.
  intros st out. split.
  - intros p. apply sorted_desc_stable.
  - subst st. rewrite <- run_drivers_keys. apply wf_drivers_names, wf_run.
Qed.

Example tie_order_example :
  let cs := [AddDriver "C" "T2"; AddDriver "A" "T1"; AddDriver "B" "T1";
             AddRace "R"; RecordResult "R" "B" "1"] in
  (display_driver_position (run cs empty_registry)).2
    = [2%nat; 0%nat; 1%nat] ∧
  registration_order cs = ["C"; "A"; "B"].
Proof. split; reflexivity. Qed.

Lemma driver_standings_ties_witness :
  filter (λ r, points_of_driver (run scenario empty_registry) r = 18)
    (display_driver_position (run scenario empty_registry)).2 = [1%nat] ∧
  name_of_driver (run scenario empty_registry) <$> [0%nat; 1%nat] =
    [Some "A"; Some "B"].
Proof.
  destruct (driver_standings_ties scenario) as [Hties Hnames].
  split; [exact (Hties 18)|exact Hnames].
Defined.

(** A name registered again keeps its place in [drivers_dict]: the object
    stored under ["A"] is the third one created, and it is listed before the
    object of ["B"], which has the same points. *)
Example reregistered_name_keeps_slot :
  let cs := [AddDriver "A" "T"; AddDriver "B" "T"; AddDriver "A" "T"] in
  (display_driver_position (run cs empty_registry)).2 = [2%nat; 1%nat] ∧
  registration_order cs = ["A"; "B"] ∧
  drivers_dict (run cs empty_registry) = [("A", 2%nat); ("B", 1%nat)].
Proof. repeat split; reflexivity. Qed.

(** * Further properties of the code *)

(** ** The scale *)

Lemma scale_points_nonneg pos : 0 ≤ scale_points pos.
Proof.
  unfold scale_points, POINT_SCALE. simpl.
  repeat (case_decide; [simpl; lia|]). done.
Qed.

Lemma awarded_nonneg results : 0 ≤ awarded results.
Proof.
  induction results as [|res l IH]; unfold awarded in *; simpl; [done|].
  pose proof (scale_points_nonneg (result_position res)). lia.
Qed.

(** ** Tidy states *)

Lemma not_elem_dict_keys_set {V} (k k' : string) (v : V) (d : dict string V) :
  k' ≠ k → k' ∉ dict_keys d → k' ∉ dict_keys (dict_set k v d).
Proof.
  intros Hne Hnin. rewrite dict_keys_set.
  destruct (dict_get k d); [done|].
  rewrite not_elem_of_app, list_elem_of_singleton. by split.
Qed.

Lemma tidy_empty : tidy empty_registry.
Proof.
  split; simpl; try apply not_elem_of_nil; try constructor; try done;
    intros; by rewrite ?lookup_nil in *.
Qed.

Lemma tidy_add_race name st : tidy st → tidy (add_race name st).
Proof.
  intros [Hdn Htn Hrn Hrk Hra Hte Hpt]. unfold add_race.
  case_bool_decide as Hname; [by split|]. split; simpl; try done.
  - apply not_elem_dict_keys_set; [congruence|done].
  - by apply dict_set_NoDup.
  - intros n race. destruct (decide (name = n)) as [->|Hne].
    + rewrite dict_get_set_eq. intros [= <-]. split; [done|].
      by intros res ?%elem_of_nil.
    + rewrite dict_get_set_ne by done. apply Hra.
Qed.

Lemma tidy_display_driver_position st :
  tidy st → tidy (display_driver_position st).1.
Proof.
  intros [Hdn Htn Hrn Hrk Hra Hte Hpt]. unfold display_driver_position.
  set (ps := enumerate 1 _). split; simpl; try done.
  - intros n race Hg. destruct (Hra _ _ Hg) as [Hname Hres].
    split; [done|]. intros res Hin. destruct (Hres _ Hin) as [Hpos [d Hd]].
    split; [done|].
    destruct (assign_positions_fwd _ ps _ _ Hd) as (d' & Hd' & _).
    by exists d'.
  - intros r d' (d & Hd & _ & _ & Hp)%assign_positions_inv.
    rewrite Hp. by eapply Hpt.
Qed.

Lemma tidy_record_race_result rname dname position st :
  wf st → tidy st → tidy (record_race_result rname dname position st).1.
Proof.
  intros Hwf Htidy. rewrite record_race_result_cases.
  destruct (py_int position) as [pos|]; [|done].
  destruct (Z.ltb_spec pos 1) as [|Hpos]; [done|].
  destruct (dict_get rname (race_dict st)) as [race|] eqn:Hrace; [|done].
  destruct (dict_get dname (drivers_dict st)) as [r|] eqn:Hg; [|done].
  destruct (wf_drivers _ Hwf _ _ Hg) as (d & Hd & _). rewrite Hd.
  destruct Htidy as [Hdn Htn Hrn Hrk Hra Hte Hpt]. cbn [fst].
  split; simpl; try done.
  - by rewrite dict_keys_set, Hrace.
  - by apply dict_set_NoDup.
  - intros n race'. destruct (decide (rname = n)) as [->|Hne].
    + rewrite dict_get_set_eq. intros [= <-].
      destruct (Hra _ _ Hrace) as [Hname Hres]. split; [done|].
      simpl. intros res [Hin|Hin]%elem_of_app;
        [|apply list_elem_of_singleton in Hin as ->].
      * destruct (Hres _ Hin) as [? [d0 Hd0]]. split; [done|].
        eexists. by apply lookup_alter_fwd.
      * simpl. split; [done|]. eexists. by apply lookup_alter_fwd.
    + rewrite dict_get_set_ne by done. intros Hg'.
      destruct (Hra _ _ Hg') as [Hname Hres]. split; [done|].
      intros res Hin. destruct (Hres _ Hin) as [? [d0 Hd0]]. split; [done|].
      eexists. by apply lookup_alter_fwd.
  - intros t T' (T & HT & HT')%lookup_alter_inv.
    destruct (Hte _ _ HT) as [Hname Hros].
    by destruct HT' as [[_ ->]|[_ ->]].
  - intros r' d' (d0 & Hd0 & Hd')%lookup_alter_inv.
    pose proof (Hpt _ _ Hd0). pose proof (scale_points_nonneg pos).
    destruct Hd' as [[_ ->]|[_ ->]]; simpl; lia.
Qed.

Lemma tidy_add_driver name tname st :
  wf st → tidy st → tidy (add_driver name tname st).1.
Proof.
  intros Hwf [Hdn Htn Hrn Hrk Hra Hte Hpt]. rewrite add_driver_cases.
  destruct (bool_decide (name = "")) eqn:Hname; [by split|].
  destruct (bool_decide (tname = "")) eqn:Hteam; [by split|].
  apply bool_decide_eq_false in Hname, Hteam. cbn [orb].
  assert (Hres : ∀ n race, dict_get n (race_dict st) = Some race →
    race_name race = n ∧
    ∀ res, res ∈ race_results race →
      1 ≤ result_position res ∧
      is_Some ((driver_heap st ++ [new_Driver name (length (team_heap st))])
                 !! result_driver res) ∧
      ∀ t, is_Some ((driver_heap st ++ [new_Driver name t])
                      !! result_driver res)).
  { intros n race Hg. destruct (Hra _ _ Hg) as [Hn Hres]. split; [done|].
    intros res Hin. destruct (Hres _ Hin) as [? [d Hd]].
    split_and!; [done| |intros t]; exists d; by apply lookup_app_l_Some. }
  assert (Hpts : ∀ t r d, (driver_heap st ++ [new_Driver name t]) !! r = Some d →
                          0 ≤ driver_points d).
  { intros t r d [[_ Hd]|[_ <-]]%lookup_snoc_Some; [by eapply Hpt|done]. }
  destruct (dict_get tname (teams_dict st)) as [t|] eqn:Hg; cbn [fst];
    split; simpl; try done;
    try (apply not_elem_dict_keys_set; [congruence|done]).
  - intros n race Hrace. destruct (Hres _ _ Hrace) as [Hn Hres'].
    split; [done|]. intros res Hin.
    destruct (Hres' _ Hin) as (? & _ & Hlive). split; [done|]. apply Hlive.
  - intros t' T' (T & HT & HT')%lookup_alter_inv.
    destruct (Hte _ _ HT) as [Hn Hros].
    destruct HT' as [[_ ->]|[_ ->]]; [done|]. simpl. split; [done|].
    by destruct (team_drivers T).
  - apply Hpts.
  - intros n race Hrace. destruct (Hres _ _ Hrace) as [Hn Hres'].
    split; [done|]. intros res Hin.
    destruct (Hres' _ Hin) as (? & _ & Hlive). split; [done|]. apply Hlive.
  - intros t' T' (T & HT & HT')%lookup_alter_inv.
    apply lookup_snoc_Some in HT as [[Hlt HT]|[-> <-]].
    + destruct (Hte _ _ HT) as [Hn Hros].
      assert (team_name T ≠ tname) by (intros Heq; congruence).
      destruct HT' as [[_ ->]|[_ ->]]; simpl;
        (split; [by rewrite dict_get_set_ne|]); [done|].
      by destruct (team_drivers T).
    + destruct HT' as [[Hne _]|[_ ->]]; [done|]. simpl.
      by rewrite dict_get_set_eq.
  - apply Hpts.
Qed.

Lemma tidy_step c st : wf st → tidy st → tidy (step c st).
Proof.
  destruct c; cbn [step];
    auto using tidy_add_race, tidy_add_driver, tidy_record_race_result,
               tidy_display_driver_position.
Qed.

Lemma tidy_run cs : tidy (run cs empty_registry).
Proof.
  induction cs as [|c cs IH] using rev_ind; [apply tidy_empty|].
  rewrite run_snoc. apply tidy_step; [apply wf_run|done].
Qed.

(** ** Sums over a heap *)

Lemma sumZ_app l k : sumZ (l ++ k) = sumZ l + sumZ k.
Proof. induction l as [|x l IH]; unfold sumZ in *; simpl; lia. Qed.

Lemma sumZ_fmap_alter {A} (f : A → Z) (g : A → A) (l : list A) (i : nat) x :
  l !! i = Some x →
  sumZ (f <$> alter g i l) = sumZ (f <$> l) + (f (g x) - f x).
Proof.
  revert i. induction l as [|y l IH]; intros [|i] Hx; try done.
  - injection Hx as ->. unfold sumZ. simpl. lia.
  - simpl in Hx. specialize (IH i Hx).
    change (f y + sumZ (f <$> alter g i l) =
            f y + sumZ (f <$> l) + (f (g x) - f x)).
    lia.
Qed.

Lemma fmap_alter_same {A B} (f : A → B) (g : A → A) (l : list A) (i : nat) :
  (∀ x, f (g x) = f x) → f <$> alter g i l = f <$> l.
Proof.
  intros Hfg. apply list_eq. intros j.
  rewrite !list_lookup_fmap, list_lookup_alter.
  case_decide; [subst|done]. destruct (l !! j); simpl; [|done].
  by rewrite Hfg.
Qed.

Lemma fmap_assign_positions {B} (f : Driver → B) heap numbered :
  (∀ i d, f (set_driver_position i d) = f d) →
  f <$> assign_positions heap numbered = f <$> heap.
Proof.
  intros Hf. apply list_eq. intros r. rewrite !list_lookup_fmap.
  by apply assign_positions_field.
Qed.

Lemma step_total_driver_points c st :
  wf st →
  total_driver_points (step c st) =
  total_driver_points st + awarded (result_of c st).
Proof.
  intros Hwf. unfold total_driver_points.
  destruct c as [name|name tn|rn dn pos| |]; cbn [step result_of].
  - unfold add_race, awarded. case_bool_decide; simpl; lia.
  - rewrite add_driver_cases.
    destruct (_ || _); [unfold awarded; simpl; lia|].
    destruct (dict_get tn (teams_dict st)); simpl;
      rewrite fmap_snoc, sumZ_app; unfold awarded, sumZ; simpl; lia.
  - rewrite record_race_result_cases.
    destruct (py_int pos) as [p|]; [|unfold awarded; simpl; lia].
    destruct (p <? 1); [unfold awarded; simpl; lia|].
    destruct (dict_get rn (race_dict st)) as [race|];
      [|unfold awarded; simpl; lia].
    destruct (dict_get dn (drivers_dict st)) as [r0|] eqn:Hg;
      [|unfold awarded; simpl; lia].
    destruct (wf_drivers _ Hwf _ _ Hg) as (d & Hd & _). rewrite Hd.
    cbn [fst snd recorded_state driver_heap].
    rewrite (sumZ_fmap_alter _ _ _ _ d) by done.
    unfold awarded. simpl. lia.
  - unfold display_driver_position. cbn [fst with_driver_heap driver_heap].
    rewrite fmap_assign_positions by done. unfold awarded. simpl. lia.
  - unfold awarded. simpl. lia.
Qed.

Lemma step_total_team_points c st :
  wf st →
  total_team_points (step c st) =
  total_team_points st + awarded (result_of c st).
Proof.
  intros Hwf. unfold total_team_points.
  destruct c as [name|name tn|rn dn pos| |]; cbn [step result_of].
  - unfold add_race, awarded. case_bool_decide; simpl; lia.
  - rewrite add_driver_cases.
    destruct (_ || _); [unfold awarded; simpl; lia|].
    destruct (dict_get tn (teams_dict st)); simpl;
      rewrite fmap_alter_same by done;
      rewrite ?fmap_snoc, ?sumZ_app; unfold awarded, sumZ; simpl; lia.
  - rewrite record_race_result_cases.
    destruct (py_int pos) as [p|]; [|unfold awarded; simpl; lia].
    destruct (p <? 1); [unfold awarded; simpl; lia|].
    destruct (dict_get rn (race_dict st)) as [race|];
      [|unfold awarded; simpl; lia].
    destruct (dict_get dn (drivers_dict st)) as [r0|] eqn:Hg;
      [|unfold awarded; simpl; lia].
    destruct (wf_drivers _ Hwf _ _ Hg) as (d & Hd & _). rewrite Hd.
    destruct (wf_driver_team _ Hwf _ _ Hd) as (T & HT & _).
    cbn [fst snd recorded_state team_heap].
    rewrite (sumZ_fmap_alter _ _ _ _ T) by done.
    unfold awarded. simpl. lia.
  - unfold awarded. simpl. lia.
  - unfold awarded. simpl. lia.
Qed.

(** ** Objects keep their name and team *)

Lemma step_driver_identity c st r d :
  driver_heap st !! r = Some d →
  ∃ d', driver_heap (step c st) !! r = Some d' ∧
        driver_name d' = driver_name d ∧ driver_team d' = driver_team d ∧
        (c ≠ DisplayPosition → driver_position d' = driver_position d).
Proof.
  intros Hd. destruct c as [name|name tn|rn dn pos| |]; cbn [step].
  - exists d. unfold add_race. by case_bool_decide.
  - exists d. rewrite add_driver_cases.
    destruct (_ || _); [done|].
    destruct (dict_get tn (teams_dict st)); simpl;
      by rewrite lookup_app_l_Some with (x := d).
  - rewrite record_race_result_cases.
    destruct (py_int pos) as [p|]; [|by exists d].
    destruct (p <? 1); [by exists d|].
    destruct (dict_get rn (race_dict st)) as [race|]; [|by exists d].
    destruct (dict_get dn (drivers_dict st)) as [r0|]; [|by exists d].
    destruct (driver_heap st !! r0) as [d0|]; simpl; [|by exists d].
    eexists. split; [by apply lookup_alter_fwd|]. by case_decide.
  - destruct (assign_positions_fwd _
      (enumerate 1 (sorted_desc (points_of_driver st)
                      (dict_values (drivers_dict st)))) _ _ Hd)
      as (d' & Hd' & Hn & Ht & _).
    exists d'. by split_and!.
  - by exists d.
Qed.

(** X1.  In every state of a session no driver, team or race is stored
    under the empty name, and what is stored under a name carries that
    name. *)
Theorem stored_under_own_name (cs : list command) :
  let st := run cs empty_registry in
  ("" ∉ dict_keys (drivers_dict st)) ∧
  ("" ∉ dict_keys (teams_dict st)) ∧
  ("" ∉ dict_keys (race_dict st)) ∧
  (∀ name r, dict_get name (drivers_dict st) = Some r →
     name_of_driver st r = Some name) ∧
  (∀ name t, dict_get name (teams_dict st) = Some t →
     team_name <$> team_heap st !! t = Some name) ∧
  (∀ name race, dict_get name (race_dict st) = Some race →
     race_name race = name).
Proof.
  intros st. pose proof (wf_run cs) as Hwf. pose proof (tidy_run cs) as Hti.
  fold st in Hwf, Hti. split_and!.
  - apply Hti.
  - apply Hti.
  - apply Hti.
  - intros name r Hg. destruct (wf_drivers _ Hwf _ _ Hg) as (d & Hd & <-).
    unfold name_of_driver. by rewrite Hd.
  - intros name t Hg. destruct (wf_teams _ Hwf _ _ Hg) as (T & HT & <-).
    by rewrite HT.
  - intros name race Hg. by destruct (tidy_races _ Hti _ _ Hg).
Qed.

Lemma stored_under_own_name_witness :
  name_of_driver (run scenario empty_registry) 1%nat = Some "B" ∧
  race_name (mkRace "R1" [mkRaceResult 0%nat 1; mkRaceResult 1%nat 2]) = "R1".
Proof.
  destruct (stored_under_own_name scenario) as (_ & _ & _ & Hd & _ & Hr).
  split; [exact (Hd "B" 1%nat eq_refl)|exact (Hr "R1" _ eq_refl)].
Defined.

(** X2.  In every state of a session, every result stored in a race has a
    position of at least 1 and refers to a live driver object. *)
Theorem stored_results_valid (cs : list command) name race res :
  dict_get name (race_dict (run cs empty_registry)) = Some race →
  res ∈ race_results race →
  1 ≤ result_position res ∧
  is_Some (driver_heap (run cs empty_registry) !! result_driver res).
Proof.
  intros Hg Hin. destruct (tidy_races _ (tidy_run cs) _ _ Hg) as [_ Hres].
  by apply Hres.
Qed.

Lemma stored_results_valid_witness :
  1 ≤ result_position (mkRaceResult 1%nat 2) ∧
  is_Some (driver_heap (run scenario empty_registry) !! 1%nat).
Proof.
  apply (stored_results_valid scenario "R1"
           (mkRace "R1" [mkRaceResult 0%nat 1; mkRaceResult 1%nat 2])
           (mkRaceResult 1%nat 2)); [reflexivity|].
  apply list_elem_of_In. right. left. reflexivity.
Defined.

(** X3.  A team object is never replaced or orphaned: in every state of a
    session each team object in the heap is the one [teams_dict] holds
    under the object's name, and its roster is not empty. *)
Theorem teams_stay_registered (cs : list command) t T :
  team_heap (run cs empty_registry) !! t = Some T →
  dict_get (team_name T) (teams_dict (run cs empty_registry)) = Some t ∧
  team_drivers T ≠ [].
Proof. intros HT. by apply (tidy_teams _ (tidy_run cs)). Qed.

Lemma teams_stay_registered_witness :
  dict_get "T1" (teams_dict twice_registered) = Some 0%nat ∧
  [0%nat; 2%nat] ≠ [].
Proof.
  apply (teams_stay_registered
           [AddDriver "A" "T1"; AddDriver "B" "T2"; AddRace "R1";
            RecordResult "R1" "A" "1"; AddDriver "A" "T1"]
           0%nat (mkTeam "T1" 25 [0%nat; 2%nat])).
  reflexivity.
Defined.

(** X4.  Points are never negative and no command lowers them: for every
    driver and team reference, the points after one more command are at
    least the points before, which are at least 0. *)
Theorem points_never_decrease (cs : list command) (c : command) (r t : nat) :
  let st := run cs empty_registry in
  0 ≤ points_of_driver st r ≤ points_of_driver (step c st) r ∧
  0 ≤ points_of_team st t ≤ points_of_team (step c st) t.
Proof.
  intros st. pose proof (wf_run cs) as Hwf. fold st in Hwf.
  destruct (session_ledger cs) as (_ & Hdrv & Hteam). fold st in Hdrv, Hteam.
  rewrite step_points_of_driver, step_points_of_team by done.
  rewrite (Hdrv r), (Hteam t).
  pose proof (awarded_nonneg
    (filter (λ res, result_driver res = r)
       (recorded_results cs empty_registry))).
  pose proof (awarded_nonneg
    (filter (λ res, team_of_driver st (result_driver res) = Some t)
       (recorded_results cs empty_registry))).
  pose proof (awarded_nonneg
    (filter (λ res, result_driver res = r) (result_of c st))).
  pose proof (awarded_nonneg
    (filter (λ res, team_of_driver st (result_driver res) = Some t)
       (result_of c st))).
  lia.
Qed.

(** X5.  Points are conserved between drivers and teams: in every state of
    a session the total over all driver objects, the total over all team
    objects and the total awarded by the recorded results are the same
    number. *)
Theorem points_conserved (cs : list command) :
  total_driver_points (run cs empty_registry) =
    awarded (recorded_results cs empty_registry) ∧
  total_team_points (run cs empty_registry) =
    awarded (recorded_results cs empty_registry).
Proof.
  induction cs as [|c cs [IHd IHt]] using rev_ind; [done|].
  rewrite run_snoc, recorded_results_snoc, awarded_app.
  rewrite step_total_driver_points, step_total_team_points by apply wf_run.
  by rewrite IHd, IHt.
Qed.

(** X6.  No command renames a driver object or moves it to another team,
    and only the driver standings write a position: after any command other
    than [DisplayPosition] every existing driver object has the position it
    had. *)
Theorem driver_identity_kept (c : command) st r d :
  driver_heap st !! r = Some d →
  ∃ d', driver_heap (step c st) !! r = Some d' ∧
        driver_name d' = driver_name d ∧ driver_team d' = driver_team d ∧
        (c ≠ DisplayPosition → driver_position d' = driver_position d).
Proof. apply step_driver_identity. Qed.

Lemma driver_identity_kept_witness :
  ∃ d', driver_heap (step (RecordResult "R1" "A" "1") grid) !! 0%nat
          = Some d' ∧
        driver_name d' = "A" ∧ driver_team d' = 0%nat ∧
        driver_position d' = None.
Proof.
  destruct (driver_identity_kept (RecordResult "R1" "A" "1") grid 0%nat
              (mkDriver "A" 0%nat 0 None) eq_refl)
    as (d' & Hd' & Hn & Ht & Hp).
  exists d'. split_and!; [exact Hd'|exact Hn|exact Ht|by apply Hp].
Defined.

(** ** [finish_race] *)

Lemma add_driver_points_add p q d :
  add_driver_points q (add_driver_points p d) = add_driver_points (p + q) d.
Proof. unfold add_driver_points. simpl. f_equal. lia. Qed.

Lemma add_team_points_add p q T :
  add_team_points q (add_team_points p T) = add_team_points (p + q) T.
Proof. unfold add_team_points. simpl. f_equal. lia. Qed.

Lemma add_driver_points_0 d : add_driver_points 0 d = d.
Proof. destruct d. unfold add_driver_points. simpl. f_equal. lia. Qed.

Lemma add_team_points_0 T : add_team_points 0 T = T.
Proof. destruct T. unfold add_team_points. simpl. f_equal. lia. Qed.

Lemma score_result_driver_heap st res :
  driver_heap (score_result st res) =
  alter (add_driver_points (scale_points (result_position res)))
    (result_driver res) (driver_heap st).
Proof.
  unfold score_result. cbn [driver_heap with_driver_heap].
  by destruct (alter _ _ _ !! _).
Qed.

Lemma score_result_team_heap st res :
  team_heap (score_result st res) =
  match team_of_driver st (result_driver res) with
  | Some t =>
      alter (add_team_points (scale_points (result_position res))) t
        (team_heap st)
  | None => team_heap st
  end.
Proof.
  unfold score_result, team_of_driver.
  cbn [driver_heap with_driver_heap]. rewrite list_lookup_alter_eq.
  by destruct (driver_heap st !! result_driver res).
Qed.

Lemma score_result_dicts st res :
  drivers_dict (score_result st res) = drivers_dict st ∧
  teams_dict (score_result st res) = teams_dict st ∧
  race_dict (score_result st res) = race_dict st.
Proof.
  unfold score_result. cbn [driver_heap with_driver_heap].
  by destruct (alter _ _ _ !! _).
Qed.

Lemma score_result_team_of_driver st res r :
  team_of_driver (score_result st res) r = team_of_driver st r.
Proof.
  unfold team_of_driver. rewrite score_result_driver_heap.
  rewrite list_lookup_alter. case_decide as Hr; [rewrite Hr|done].
  by destruct (driver_heap st !! r).
Qed.

Lemma foldl_score_result_dicts results st :
  drivers_dict (foldl score_result st results) = drivers_dict st ∧
  teams_dict (foldl score_result st results) = teams_dict st ∧
  race_dict (foldl score_result st results) = race_dict st.
Proof.
  revert st. induction results as [|res l IH]; intros st; [done|].
  simpl. destruct (IH (score_result st res)) as (-> & -> & ->).
  apply score_result_dicts.
Qed.

Lemma foldl_score_result_team_of_driver results st r :
  team_of_driver (foldl score_result st results) r = team_of_driver st r.
Proof.
  revert st. induction results as [|res l IH]; intros st; [done|].
  simpl. by rewrite IH, score_result_team_of_driver.
Qed.

Lemma foldl_score_result_driver results st (r : driver_ref) :
  driver_heap (foldl score_result st results) !! r =
  add_driver_points
    (awarded (filter (λ res, result_driver res = r) results))
  <$> driver_heap st !! r.
Proof.
  revert st. induction results as [|res l IH]; intros st.
  - simpl. destruct (driver_heap st !! r); simpl; [|done].
    by rewrite add_driver_points_0.
  - simpl. rewrite IH, score_result_driver_heap, list_lookup_alter.
    rewrite filter_cons. destruct (decide (result_driver res = r)) as [Hr|Hr].
    + subst r.
      destruct (driver_heap st !! result_driver res); simpl; [|done].
      by rewrite add_driver_points_add.
    + done.
Qed.

Lemma foldl_score_result_team results st (t : team_ref) :
  team_heap (foldl score_result st results) !! t =
  add_team_points
    (awarded (filter (λ res, team_of_driver st (result_driver res) = Some t)
                results))
  <$> team_heap st !! t.
Proof.
  revert st. induction results as [|res l IH]; intros st.
  - simpl. destruct (team_heap st !! t); simpl; [|done].
    by rewrite add_team_points_0.
  - simpl. rewrite IH.
    rewrite (list_filter_iff _
      (λ res0, team_of_driver st (result_driver res0) = Some t))
      by (intros; by rewrite score_result_team_of_driver).
    rewrite score_result_team_heap, filter_cons.
    destruct (team_of_driver st (result_driver res)) as [t0|] eqn:Ht0.
    + rewrite list_lookup_alter.
      destruct (decide (t0 = t)) as [->|Hne].
      * rewrite decide_True by done.
        destruct (team_heap st !! t); simpl; [|done].
        by rewrite add_team_points_add.
      * rewrite decide_False by congruence. done.
    + by rewrite decide_False by done.
Qed.

Lemma finish_race_lookups rname race st :
  dict_get rname (race_dict st) = Some race →
  let st' := finish_race rname st in
  (∀ r : driver_ref,
     driver_heap st' !! r =
     add_driver_points
       (awarded (filter (λ res, result_driver res = r) (race_results race)))
     <$> driver_heap st !! r) ∧
  (∀ t : team_ref,
     team_heap st' !! t =
     add_team_points
       (awarded (filter (λ res, team_of_driver st (result_driver res) = Some t)
                   (race_results race)))
     <$> team_heap st !! t) ∧
  drivers_dict st' = drivers_dict st ∧
  teams_dict st' = teams_dict st ∧
  race_dict st' = race_dict st.
Proof.
  intros Hg st'. subst st'. unfold finish_race. rewrite Hg.
  destruct (foldl_score_result_dicts (race_results race) st) as (? & ? & ?).
  split_and!; try done.
  - intros r. apply foldl_score_result_driver.
  - intros t. apply foldl_score_result_team.
Qed.

(** X7.  [finish_race] on a registered race adds, to every driver object,
    the scale's points of that driver's results in the race, and to every
    team object those of its drivers' results in the race; the results were
    scored when they were recorded, so this counts them again.  The three
    dictionaries, and with them the races, are as before. *)
Theorem finish_race_adds_awards rname race st :
  dict_get rname (race_dict st) = Some race →
  let st' := finish_race rname st in
  (∀ r : driver_ref,
     driver_heap st' !! r =
     add_driver_points
       (awarded (filter (λ res, result_driver res = r) (race_results race)))
     <$> driver_heap st !! r) ∧
  (∀ t : team_ref,
     team_heap st' !! t =
     add_team_points
       (awarded (filter (λ res, team_of_driver st (result_driver res) = Some t)
                   (race_results race)))
     <$> team_heap st !! t) ∧
  drivers_dict st' = drivers_dict st ∧
  teams_dict st' = teams_dict st ∧
  race_dict st' = race_dict st.
Proof. apply finish_race_lookups. Qed.

Lemma finish_race_adds_awards_witness :
  driver_heap (finish_race "R1" (run scenario empty_registry)) !! 1%nat =
    Some (mkDriver "B" 1%nat 36 None) ∧
  team_heap (finish_race "R1" (run scenario empty_registry)) !! 0%nat =
    Some (mkTeam "T1" 50 [0%nat]).
Proof.
  destruct (finish_race_adds_awards "R1"
              (mkRace "R1" [mkRaceResult 0%nat 1; mkRaceResult 1%nat 2])
              (run scenario empty_registry) eq_refl) as (Hd & Ht & _).
  split; [exact (Hd 1%nat)|exact (Ht 0%nat)].
Defined.

Lemma registry_eq st st' :
  driver_heap st = driver_heap st' → team_heap st = team_heap st' →
  drivers_dict st = drivers_dict st' → teams_dict st = teams_dict st' →
  race_dict st = race_dict st' → st = st'.
Proof. destruct st, st'. simpl. by intros -> -> -> -> ->. Qed.

Lemma finish_race_unknown rname st :
  dict_get rname (race_dict st) = None → finish_race rname st = st.
Proof. intros Hg. unfold finish_race. by rewrite Hg. Qed.

Lemma finish_race_team_of_driver rname st r :
  team_of_driver (finish_race rname st) r = team_of_driver st r.
Proof.
  unfold finish_race. destruct (dict_get rname (race_dict st)); [|done].
  apply foldl_score_result_team_of_driver.
Qed.

Lemma finish_race_race_dict rname st :
  race_dict (finish_race rname st) = race_dict st.
Proof.
  unfold finish_race. destruct (dict_get rname (race_dict st)); [|done].
  apply foldl_score_result_dicts.
Qed.

Lemma finish_race_comm rname1 rname2 st :
  finish_race rname1 (finish_race rname2 st) =
  finish_race rname2 (finish_race rname1 st).
Proof.
  destruct (dict_get rname1 (race_dict st)) as [race1|] eqn:H1.
  2: { rewrite (finish_race_unknown rname1 st) by done.
       apply finish_race_unknown. by rewrite finish_race_race_dict. }
  destruct (dict_get rname2 (race_dict st)) as [race2|] eqn:H2.
  2: { rewrite (finish_race_unknown rname2 st) by done. symmetry.
       apply finish_race_unknown. by rewrite finish_race_race_dict. }
  destruct (finish_race_lookups _ _ st H1) as (Hd1 & Ht1 & Hdd1 & Htd1 & Hr1).
  destruct (finish_race_lookups _ _ st H2) as (Hd2 & Ht2 & Hdd2 & Htd2 & Hr2).
  assert (H1' : dict_get rname1 (race_dict (finish_race rname2 st)) = Some race1)
    by by rewrite Hr2.
  assert (H2' : dict_get rname2 (race_dict (finish_race rname1 st)) = Some race2)
    by by rewrite Hr1.
  destruct (finish_race_lookups _ _ _ H1') as (Hd12 & Ht12 & Hdd12 & Htd12 & Hr12).
  destruct (finish_race_lookups _ _ _ H2') as (Hd21 & Ht21 & Hdd21 & Htd21 & Hr21).
  apply registry_eq; try congruence.
  - apply list_eq. intros r. rewrite Hd12, Hd21, Hd1, Hd2.
    destruct (driver_heap st !! r); simpl; [|done].
    rewrite !add_driver_points_add. f_equal. f_equal. lia.
  - apply list_eq. intros t. rewrite Ht12, Ht21, Ht1, Ht2.
    rewrite (list_filter_iff
      (λ res, team_of_driver (finish_race rname2 st) (result_driver res)
              = Some t)
      (λ res, team_of_driver st (result_driver res) = Some t))
      by (intros; by rewrite finish_race_team_of_driver).
    rewrite (list_filter_iff
      (λ res, team_of_driver (finish_race rname1 st) (result_driver res)
              = Some t)
      (λ res, team_of_driver st (result_driver res) = Some t))
      by (intros; by rewrite finish_race_team_of_driver).
    destruct (team_heap st !! t); simpl; [|done].
    rewrite !add_team_points_add. f_equal. f_equal. lia.
Qed.

(** X8.  Finishing two races gives the same registry in either order, for
    any two race names (registered or not, equal or not). *)
Theorem finish_race_commutes rname1 rname2 st :
  finish_race rname1 (finish_race rname2 st) =
  finish_race rname2 (finish_race rname1 st).
Proof. apply finish_race_comm. Qed.

Lemma score_result_live st res d :
  driver_heap st !! result_driver res = Some d →
  score_result st res =
  with_race_dict (race_dict st)
    (recorded_state st "" (new_Race "") (result_driver res) (driver_team d)
       (result_position res)).
Proof.
  intros Hd. unfold score_result.
  cbn [driver_heap with_driver_heap]. by rewrite list_lookup_alter_eq, Hd.
Qed.

Lemma tidy_score_result st res d :
  driver_heap st !! result_driver res = Some d →
  tidy st → tidy (score_result st res).
Proof.
  intros Hd [Hdn Htn Hrn Hrk Hra Hte Hpt].
  rewrite (score_result_live _ _ d) by done. split; simpl; try done.
  - intros n race Hg. destruct (Hra _ _ Hg) as [Hname Hres].
    split; [done|]. intros res' Hin.
    destruct (Hres _ Hin) as [? [d0 Hd0]]. split; [done|].
    eexists. by apply lookup_alter_fwd.
  - intros t T' (T & HT & HT')%lookup_alter_inv.
    destruct (Hte _ _ HT) as [Hname Hros].
    by destruct HT' as [[_ ->]|[_ ->]].
  - intros r' d' (d0 & Hd0 & Hd')%lookup_alter_inv.
    pose proof (Hpt _ _ Hd0).
    pose proof (scale_points_nonneg (result_position res)).
    destruct Hd' as [[_ ->]|[_ ->]]; simpl; lia.
Qed.

Lemma foldl_score_result_invariants results st :
  wf st → tidy st →
  (∀ res, res ∈ results → is_Some (driver_heap st !! result_driver res)) →
  wf (foldl score_result st results) ∧ tidy (foldl score_result st results).
Proof.
  revert st. induction results as [|res l IH]; intros st Hwf Hti Hlive;
    [done|].
  destruct (Hlive res) as [d Hd]; [left|]. simpl. apply IH.
  - rewrite (score_result_live _ _ d) by done.
    by apply wf_with_race_dict, wf_recorded_state.
  - by eapply tidy_score_result.
  - intros res' Hin. destruct (Hlive res') as [d' Hd']; [by right|].
    rewrite score_result_driver_heap. eexists. by apply lookup_alter_fwd.
Qed.

(** X9.  [finish_race] keeps the registry consistent: if the object graph
    is consistent and tidy before (as it is after any session), it is so
    after; in particular every team's points are still the total of its
    roster's points. *)
Theorem finish_race_keeps_invariants rname st :
  wf st → tidy st →
  wf (finish_race rname st) ∧ tidy (finish_race rname st).
Proof.
  intros Hwf Hti. unfold finish_race.
  destruct (dict_get rname (race_dict st)) as [race|] eqn:Hg; [|done].
  apply foldl_score_result_invariants; try done.
  intros res Hin. destruct (tidy_races _ Hti _ _ Hg) as [_ Hres].
  by apply Hres.
Qed.

Lemma finish_race_keeps_invariants_witness :
  wf (finish_race "R1" (run scenario empty_registry)) ∧
  tidy (finish_race "R1" (run scenario empty_registry)).
Proof.
  apply (finish_race_keeps_invariants "R1" (run scenario empty_registry)
           (wf_run scenario) (tidy_run scenario)).
Defined.

(** ** [add_race] on a name that is taken *)

(** X10.  Adding a race under a non-empty name leaves a race with no
    results under that name, whatever was stored there: results recorded
    for an earlier race of that name are gone from the registry, while the
    points they gave stay (the heaps and the other dictionaries are
    untouched), the other races are as before, and [finish_race] on the
    name then changes nothing. *)
Theorem add_race_resets name st :
  name ≠ "" →
  let st' := add_race name st in
  dict_get name (race_dict st') = Some (mkRace name []) ∧
  (∀ name', name' ≠ name →
     dict_get name' (race_dict st') = dict_get name' (race_dict st)) ∧
  driver_heap st' = driver_heap st ∧ team_heap st' = team_heap st ∧
  drivers_dict st' = drivers_dict st ∧ teams_dict st' = teams_dict st ∧
  finish_race name st' = st'.
Proof.
  intros Hname st'. subst st'. unfold add_race.
  rewrite bool_decide_eq_false_2 by done. split_and!; try done; simpl.
  - by rewrite dict_get_set_eq.
  - intros name' Hne. by rewrite dict_get_set_ne.
  - unfold finish_race. simpl. by rewrite dict_get_set_eq.
Qed.

Lemma add_race_resets_witness :
  dict_get "R1" (race_dict (add_race "R1" (run scenario empty_registry)))
    = Some (mkRace "R1" []) ∧
  driver_heap (add_race "R1" (run scenario empty_registry))
    = [mkDriver "A" 0%nat 25 None; mkDriver "B" 1%nat 18 None].
Proof.
  destruct (add_race_resets "R1" (run scenario empty_registry))
    as (H1 & _ & H2 & _); [done|].
  split; [exact H1|exact H2].
Defined.

(** ** More on the standings *)

Lemma StronglySorted_lookup_lt {A} (R : relation A) (l : list A)
    (i j : nat) x y :
  StronglySorted R l → l !! i = Some x → l !! j = Some y → (i < j)%nat →
  R x y.
Proof.
  intros Hs. revert i j. induction Hs as [|a l Hs IH Hall]; intros i j.
  - by rewrite lookup_nil.
  - destruct i as [|i], j as [|j]; simpl; try lia.
    + intros [= <-] Hy _. rewrite Forall_forall in Hall. apply Hall.
      by eapply list_elem_of_lookup_2.
    + intros Hx Hy Hlt. apply (IH i j); [done|done|lia].
Qed.

Lemma display_driver_position_at st (i : nat) r :
  wf st → (display_driver_position st).2 !! i = Some r →
  driver_position <$> driver_heap (display_driver_position st).1 !! r =
  Some (Some (Z.of_nat i + 1)).
Proof.
  intros Hwf Hi. set (out := (display_driver_position st).2) in *.
  assert (Hperm : out ≡ₚ dict_values (drivers_dict st))
    by apply sorted_desc_perm.
  destruct (wf_drivers_values_live st r Hwf) as [d Hd].
  { rewrite <- Hperm. by eapply list_elem_of_lookup_2. }
  unfold display_driver_position. cbn [fst driver_heap with_driver_heap].
  rewrite (assign_positions_at _ _ (1 + Z.of_nat i) r).
  - rewrite Hd. simpl. do 2 f_equal. lia.
  - rewrite enumerate_snd. change (NoDup out). rewrite Hperm.
    by apply wf_drivers_values_NoDup.
  - apply (list_elem_of_lookup_2 _ i). rewrite enumerate_lookup.
    change (sorted_desc _ _) with out. by rewrite Hi.
Qed.

(** X11.  Asking for the driver standings twice in a row is the same as
    asking once: the second call prints the same list and leaves the
    registry as the first call left it. *)
Theorem display_driver_position_idempotent st :
  wf st →
  display_driver_position (display_driver_position st).1 =
  display_driver_position st.
Proof.
  intros Hwf. unfold display_driver_position at 1 3.
  set (st' := (display_driver_position st).1).
  assert (Hout : sorted_desc (points_of_driver st')
                   (dict_values (drivers_dict st')) =
                 sorted_desc (points_of_driver st)
                   (dict_values (drivers_dict st))).
  { apply sorted_desc_ext. intros r _. apply display_points_of_driver. }
  rewrite Hout. set (out := sorted_desc _ _).
  assert (Hnd : NoDup out).
  { unfold out. rewrite sorted_desc_perm. by apply wf_drivers_values_NoDup. }
  f_equal. unfold st', display_driver_position. fold out.
  apply registry_eq; try done.
  cbn [fst with_driver_heap driver_heap].
  apply list_eq. intros r.
  destruct (decide (r ∈ out)) as [Hin|Hnin].
  - apply list_elem_of_lookup_1 in Hin as [i Hi].
    assert (Hir : (1 + Z.of_nat i, r) ∈ enumerate 1 out).
    { apply (list_elem_of_lookup_2 _ i). rewrite enumerate_lookup.
      by rewrite Hi. }
    rewrite !(assign_positions_at _ _ (1 + Z.of_nat i) r)
      by (by rewrite ?enumerate_snd).
    by destruct (driver_heap st !! r).
  - by rewrite !assign_positions_other by (by rewrite enumerate_snd).
Qed.

Lemma display_driver_position_idempotent_witness :
  display_driver_position
    (display_driver_position (run scenario empty_registry)).1 =
  display_driver_position (run scenario empty_registry).
Proof.
  apply (display_driver_position_idempotent (run scenario empty_registry)
           (wf_run scenario)).
Defined.

(** X12.  After the driver standings of any session state, a registered
    driver with strictly more points than another registered driver has a
    strictly smaller position; both positions lie between 1 and the number
    of registered drivers. *)
Theorem more_points_better_position (cs : list command) name1 name2 r1 r2 :
  let st := run cs empty_registry in
  let st' := (display_driver_position st).1 in
  dict_get name1 (drivers_dict st) = Some r1 →
  dict_get name2 (drivers_dict st) = Some r2 →
  points_of_driver st r2 < points_of_driver st r1 →
  ∃ p1 p2,
    driver_position <$> driver_heap st' !! r1 = Some (Some p1) ∧
    driver_position <$> driver_heap st' !! r2 = Some (Some p2) ∧
    1 ≤ p1 < p2 ∧ p2 ≤ Z.of_nat (length (drivers_dict st)).
Proof.
  intros st st' H1 H2 Hlt. pose proof (wf_run cs) as Hwf. fold st in Hwf.
  set (out := (display_driver_position st).2).
  assert (Hperm : out ≡ₚ dict_values (drivers_dict st))
    by apply sorted_desc_perm.
  assert (Hin : ∀ name r, dict_get name (drivers_dict st) = Some r →
                          ∃ i : nat, out !! i = Some r).
  { intros name r Hg. apply list_elem_of_lookup_1. rewrite Hperm.
    apply (elem_dict_values _ _ (wf_drivers_keys _ Hwf)). by exists name. }
  destruct (Hin _ _ H1) as [i1 Hi1]. destruct (Hin _ _ H2) as [i2 Hi2].
  exists (Z.of_nat i1 + 1), (Z.of_nat i2 + 1). split_and!.
  - by apply display_driver_position_at.
  - by apply display_driver_position_at.
  - lia.
  - destruct (decide (i1 < i2)%nat) as [|Hge]; [lia|]. exfalso.
    destruct (decide (i1 = i2)) as [->|Hne]; [simplify_eq; lia|].
    pose proof (StronglySorted_lookup_lt _ out i2 i1 r2 r1
      (sorted_desc_sorted (points_of_driver st) _) Hi2 Hi1 ltac:(lia)) as Hd.
    unfold desc in Hd. lia.
  - apply lookup_lt_Some in Hi2. unfold out in Hi2.
    unfold display_driver_position in Hi2. cbn [snd] in Hi2.
    rewrite sorted_desc_length in Hi2. unfold dict_values in Hi2.
    rewrite length_fmap in Hi2. lia.
Qed.

Lemma more_points_better_position_witness :
  ∃ p1 p2,
    driver_position <$>
      driver_heap (display_driver_position (run scenario empty_registry)).1
        !! 0%nat = Some (Some p1) ∧
    driver_position <$>
      driver_heap (display_driver_position (run scenario empty_registry)).1
        !! 1%nat = Some (Some p2) ∧
    1 ≤ p1 < p2 ∧ p2 ≤ 2.
Proof.
  apply (more_points_better_position scenario "A" "B" 0%nat 1%nat);
    [reflexivity|reflexivity|].
  vm_compute. reflexivity.
Defined.

(** X13.  In the team standings a team with strictly more points than
    another has a strictly smaller rank. *)
Theorem more_points_better_rank st (i j : nat) rank1 rank2 (t1 t2 : team_ref) :
  (display_team_standings st).2 !! i = Some (rank1, t1) →
  (display_team_standings st).2 !! j = Some (rank2, t2) →
  points_of_team st t2 < points_of_team st t1 →
  rank1 < rank2.
Proof.
  unfold display_team_standings. cbn [snd]. rewrite !enumerate_lookup.
  set (out := sorted_desc _ _).
  destruct (out !! i) as [t1'|] eqn:Hi; [|done].
  destruct (out !! j) as [t2'|] eqn:Hj; [|done].
  simpl. intros [= <- ->] [= <- ->] Hlt.
  destruct (decide (i < j)%nat) as [|Hge]; [lia|]. exfalso.
  destruct (decide (i = j)) as [->|Hne]; [simplify_eq; lia|].
  pose proof (StronglySorted_lookup_lt _ out j i t2 t1
    (sorted_desc_sorted (points_of_team st) _) Hj Hi ltac:(lia)) as Hd.
  unfold desc in Hd. lia.
Qed.

Lemma more_points_better_rank_witness : 1 < 2.
Proof.
  apply (more_points_better_rank (run scenario empty_registry)
           0%nat 1%nat 1 2 0%nat 1%nat); [reflexivity|reflexivity|].
  vm_compute. reflexivity.
Defined.

(** ** The input loops on examples *)

Example py_text_examples :
  py_split "," "Max, Red Bull" = ["Max"; " Red Bull"] ∧
  py_split "," "" = [""] ∧
  py_split "," "a,,b," = ["a"; ""; "b"; ""] ∧
  py_lower "DoNe" = "done" ∧ py_lower " done" = " done" ∧
  py_strip "  Red Bull " = "Red Bull" ∧ py_strip "   " = "".
Proof. repeat split; reflexivity. Qed.

(** The scenario typed at the menu, with a malformed line, a bad choice and
    lines left unread after the exit. *)
Example main_loop_example :
  main_loop 20
    ["2"; "A, T1"; "no comma"; "B ,T2"; "DONE"; "1"; "R1"; ""; "done";
     "x"; "3"; " R1 "; "A,1"; "B, 2"; "done"; "9"; "4"]
    empty_registry
  = Exited (run scenario empty_registry) ["4"].
Proof. reflexivity. Qed.

(** ** Loops as runs of commands *)

Lemma run_cons c cs st : run (c :: cs) st = run cs (step c st).
Proof. done. Qed.

Lemma run_app cs1 cs2 st : run (cs1 ++ cs2) st = run cs2 (run cs1 st).
Proof. unfold run. by rewrite foldl_app. Qed.

Lemma add_driver_entry_step data st :
  (add_driver_entry data st).1 = run (option_list (driver_command data)) st.
Proof.
  unfold add_driver_entry, driver_command.
  destruct (py_strip <$> py_split "," data) as [|n [|t [|]]]; done.
Qed.

Lemma add_driver_loop_app pre rest st :
  Forall (λ l, py_lower l ≠ "done") pre →
  add_driver_loop (pre ++ rest) st =
  add_driver_loop rest (run (omap driver_command pre) st).
Proof.
  intros Hpre. revert st. induction Hpre as [|l pre Hl Hpre IH]; intros st;
    [done|].
  simpl. rewrite bool_decide_eq_false_2 by done.
  rewrite IH, add_driver_entry_step.
  destruct (driver_command l); simpl; done.
Qed.

Lemma add_race_loop_app pre rest st :
  Forall (λ l, py_lower l ≠ "done") pre →
  add_race_loop (pre ++ rest) st =
  add_race_loop rest (run ((λ l, AddRace (py_strip l)) <$> pre) st).
Proof.
  intros Hpre. revert st. induction Hpre as [|l pre Hl Hpre IH]; intros st;
    [done|].
  simpl. rewrite bool_decide_eq_false_2 by done. by rewrite IH.
Qed.

(** X14.  [add_driver] processes the lines up to the first one that reads
    "done" in any letter case and leaves the lines after it unread.  The
    registry it ends with is the one the registrations of the two-field
    lines give, in order; a line without exactly two comma-separated fields
    registers nothing and does not stop the loop.  If the input ends before
    "done", the same registrations are made and the loop ends in
    [EOFError]. *)
Theorem add_driver_loop_runs pre st :
  Forall (λ l, py_lower l ≠ "done") pre →
  add_driver_loop pre st =
    mkHandled (run (omap driver_command pre) st) [] (Some PyEOFError) ∧
  ∀ line post, py_lower line = "done" →
    add_driver_loop (pre ++ line :: post) st =
      mkHandled (run (omap driver_command pre) st) post None.
Proof.
  intros Hpre. split.
  - rewrite <- (app_nil_r pre) at 1. by rewrite add_driver_loop_app.
  - intros line post Hdone. rewrite add_driver_loop_app by done. simpl.
    by rewrite bool_decide_eq_true_2.
Qed.

Lemma add_driver_loop_runs_witness :
  add_driver_loop ["A, T1"; "no comma"; "a,b,c"; "B ,T2"; "Done"; "C,T3"]
    empty_registry =
  mkHandled (run [AddDriver "A" "T1"; AddDriver "B" "T2"] empty_registry)
    ["C,T3"] None.
Proof.
  apply (proj2 (add_driver_loop_runs ["A, T1"; "no comma"; "a,b,c"; "B ,T2"]
                  empty_registry ltac:(by repeat constructor))
           "Done" ["C,T3"]).
  reflexivity.
Defined.

(** X15.  [add_race] adds one race per line, under the stripped line, up to
    the first line that reads "done" in any letter case, and leaves the
    lines after it unread; blank lines add nothing.  If the input ends
    before "done", the loop ends in [EOFError] with the races added. *)
Theorem add_race_loop_runs pre st :
  Forall (λ l, py_lower l ≠ "done") pre →
  add_race_loop pre st =
    mkHandled (run ((λ l, AddRace (py_strip l)) <$> pre) st) []
      (Some PyEOFError) ∧
  (∀ line post, py_lower line = "done" →
    add_race_loop (pre ++ line :: post) st =
      mkHandled (run ((λ l, AddRace (py_strip l)) <$> pre) st) post None) ∧
  (∀ l, py_strip l = "" → step (AddRace (py_strip l)) st = st).
Proof.
  intros Hpre. split_and!.
  - rewrite <- (app_nil_r pre) at 1. by rewrite add_race_loop_app.
  - intros line post Hdone. rewrite add_race_loop_app by done. simpl.
    by rewrite bool_decide_eq_true_2.
  - intros l ->. done.
Qed.

Lemma add_race_loop_runs_witness :
  add_race_loop [" Monza "; "  "; "Spa"; "DONE"; "Imola"] empty_registry =
  mkHandled
    (run [AddRace "Monza"; AddRace ""; AddRace "Spa"] empty_registry)
    ["Imola"] None.
Proof.
  apply (proj1 (proj2 (add_race_loop_runs [" Monza "; "  "; "Spa"]
                         empty_registry ltac:(by repeat constructor)))
           "DONE" ["Imola"]).
  reflexivity.
Defined.

Lemma record_race_result_step rname dname position st :
  is_Some (py_int position) →
  ∀ st' s, record_race_result rname dname position st = (st', s) →
           s ≠ Raised ValueError ∧ st' = step (RecordResult rname dname position) st.
Proof.
  intros [pos Hp] st' s Hrec. split; [|by simpl; rewrite Hrec].
  rewrite record_race_result_cases, Hp in Hrec.
  destruct (pos <? 1); [by injection Hrec as _ <-|].
  destruct (dict_get rname (race_dict st)); [|by injection Hrec as _ <-].
  destruct (dict_get dname (drivers_dict st)); by injection Hrec as _ <-.
Qed.

Lemma record_entry_ok rname line st :
  entry_ok line →
  record_entry rname line st =
  Next (run (option_list (result_command rname line)) st).
Proof.
  intros (d & p & Hsplit & Hd & Hp). unfold record_entry, result_command.
  rewrite Hsplit. cbn [length hd fmap list_fmap Nat.ltb Nat.leb orb].
  rewrite bool_decide_eq_false_2 by done.
  destruct (record_race_result rname (py_strip d) (py_strip p) st)
    as [st' s] eqn:Hrec.
  destruct (record_race_result_step _ _ _ _ Hp _ _ Hrec) as [Hs ->].
  destruct s as [| | |[]]; done.
Qed.

Lemma record_race_result_lines_app rname pre rest st :
  Forall entry_ok pre →
  record_race_result_lines rname (pre ++ rest) st =
  record_race_result_lines rname rest
    (run (omap (result_command rname) pre) st).
Proof.
  intros Hpre. revert st. induction Hpre as [|l pre Hl Hpre IH]; intros st;
    [done|].
  simpl. rewrite record_entry_ok by done. rewrite IH.
  destruct Hl as (d & p & Hsplit & _). unfold result_command at 2 3.
  by rewrite Hsplit.
Qed.

(** X16.  The loop of [record_race_result] gets past every line of two
    fields whose first field does not read "done" and whose second is a
    number, recording it as one entry.  It stops without error at the first
    line that has no comma or whose first field reads "done" in any letter
    case, leaving the lines after it unread; if the input ends first it
    ends in [EOFError]. *)
Theorem record_race_result_lines_runs rname pre st :
  Forall entry_ok pre →
  record_race_result_lines rname pre st =
    mkHandled (run (omap (result_command rname) pre) st) []
      (Some PyEOFError) ∧
  ∀ line post,
    (length (py_split "," line) < 2)%nat ∨
    py_lower (hd "" (py_split "," line)) = "done" →
    record_race_result_lines rname (pre ++ line :: post) st =
      mkHandled (run (omap (result_command rname) pre) st) post None.
Proof.
  intros Hpre. split.
  - rewrite <- (app_nil_r pre) at 1.
    by rewrite record_race_result_lines_app.
  - intros line post Hstop. rewrite record_race_result_lines_app by done.
    simpl. unfold record_entry.
    destruct Hstop as [Hlen|Hdone].
    + by rewrite (proj2 (Nat.ltb_lt _ _) Hlen).
    + rewrite (bool_decide_eq_true_2 _ Hdone). by rewrite orb_true_r.
Qed.

Lemma record_race_result_lines_runs_witness :
  record_race_result_lines "R1" ["A, 1"; " done, 2"; "B,2"; "stop"; "A,3"]
    grid =
  mkHandled
    (run [RecordResult "R1" "A" "1"; RecordResult "R1" "done" "2";
          RecordResult "R1" "B" "2"] grid)
    ["A,3"] None.
Proof.
  apply (proj2 (record_race_result_lines_runs "R1"
                  ["A, 1"; " done, 2"; "B,2"] grid
                  ltac:(repeat constructor; by repeat eexists))
           "stop" ["A,3"]).
  left. vm_compute. lia.
Defined.

(** X17.  A line of the recording loop with more than two fields, or with
    two fields and a position that is not a number, ends the whole loop in
    [ValueError] (unless its first field reads "done"): the registry is as
    the lines before left it, and the lines after are left unread. *)
Theorem record_race_result_lines_abort rname line post st :
  py_lower (hd "" (py_split "," line)) ≠ "done" →
  (2 < length (py_split "," line))%nat ∨
  (∃ driver position,
     py_split "," line = [driver; position] ∧
     py_int (py_strip position) = None) →
  record_race_result_lines rname (line :: post) st =
    mkHandled st post (Some PyValueError).
Proof.
  intros Hdone Hbad. simpl. unfold record_entry.
  rewrite (bool_decide_eq_false_2 _ Hdone), orb_false_r.
  destruct Hbad as [Hlen|(d & p & Hsplit & Hp)].
  - rewrite (proj2 (Nat.ltb_ge _ _)) by lia.
    destruct (py_split "," line) as [|f1 [|f2 [|f3 fs]]]; simpl in *;
      try lia. done.
  - rewrite Hsplit. cbn [length fmap list_fmap Nat.ltb Nat.leb].
    by rewrite record_race_result_cases, Hp.
Qed.

Lemma record_race_result_lines_abort_witness :
  record_race_result_lines "R1" ["A, first"; "B,2"] grid =
    mkHandled grid ["B,2"] (Some PyValueError) ∧
  record_race_result_lines "R1" ["A,1,x"; "B,2"] grid =
    mkHandled grid ["B,2"] (Some PyValueError).
Proof.
  split.
  - apply (record_race_result_lines_abort "R1" "A, first" ["B,2"] grid);
      [done|right; by exists "A", " first"].
  - apply (record_race_result_lines_abort "R1" "A,1,x" ["B,2"] grid);
      [done|left; vm_compute; lia].
Defined.

(** X18.  When the race name typed first is not registered,
    [record_race_result] changes nothing, whatever lines follow. *)
Theorem record_race_result_loop_unknown_race rname lines st :
  dict_get (py_strip rname) (race_dict st) = None →
  h_registry (record_race_result_loop (rname :: lines) st) = st.
Proof.
  intros Hrace. simpl. induction lines as [|line lines IH]; [done|].
  simpl. unfold record_entry.
  destruct (_ || _); [done|].
  destruct (py_strip <$> py_split "," line) as [|d [|p [|]]]; try done.
  rewrite record_race_result_cases.
  destruct (py_int p) as [pos|]; [|done].
  destruct (pos <? 1); [done|].
  by rewrite Hrace.
Qed.

Lemma record_race_result_loop_unknown_race_witness :
  h_registry (record_race_result_loop ["Monza"; "A,1"; "B,2"; "done"] grid)
    = grid.
Proof.
  apply (record_race_result_loop_unknown_race "Monza"
           ["A,1"; "B,2"; "done"] grid).
  reflexivity.
Defined.

(** ** The menu loop *)

Lemma add_race_loop_reach input st :
  (∃ cs, h_registry (add_race_loop input st) = run cs st) ∧
  h_unread (add_race_loop input st) `suffix_of` input.
Proof.
  revert st. induction input as [|l input IH]; intros st.
  - split; [by exists []|apply suffix_nil].
  - simpl. case_bool_decide.
    + split; [by exists []|]. simpl. by apply suffix_cons_r.
    + destruct (IH (add_race (py_strip l) st)) as [[cs Hcs] Hsuf].
      split; [|by apply suffix_cons_r].
      exists (AddRace (py_strip l) :: cs). by rewrite run_cons.
Qed.

Lemma add_driver_loop_reach input st :
  (∃ cs, h_registry (add_driver_loop input st) = run cs st) ∧
  h_unread (add_driver_loop input st) `suffix_of` input.
Proof.
  revert st. induction input as [|l input IH]; intros st.
  - split; [by exists []|apply suffix_nil].
  - simpl. case_bool_decide.
    + split; [by exists []|]. simpl. by apply suffix_cons_r.
    + destruct (IH (add_driver_entry l st).1) as [[cs Hcs] Hsuf].
      split; [|by apply suffix_cons_r].
      exists (option_list (driver_command l) ++ cs).
      by rewrite run_app, <- add_driver_entry_step.
Qed.

Lemma record_entry_Next rname line st st' :
  record_entry rname line st = Next st' → ∃ cs, st' = run cs st.
Proof.
  unfold record_entry. destruct (_ || _); [done|].
  destruct (py_strip <$> py_split "," line) as [|d [|p [|]]]; try done.
  destruct (record_race_result rname d p st) as [st1 s] eqn:Hrec.
  exists [RecordResult rname d p]. simpl. rewrite Hrec.
  destruct s as [| | |[]]; by simplify_eq.
Qed.

Lemma record_race_result_lines_reach rname input st :
  (∃ cs, h_registry (record_race_result_lines rname input st) = run cs st) ∧
  h_unread (record_race_result_lines rname input st) `suffix_of` input.
Proof.
  revert st. induction input as [|l input IH]; intros st.
  - split; [by exists []|apply suffix_nil].
  - simpl. destruct (record_entry rname l st) as [|st'|e] eqn:Hentry.
    + split; [by exists []|]. simpl. by apply suffix_cons_r.
    + destruct (record_entry_Next _ _ _ _ Hentry) as [cs1 ->].
      destruct (IH (run cs1 st)) as [[cs Hcs] Hsuf].
      split; [|by apply suffix_cons_r].
      exists (cs1 ++ cs). by rewrite run_app.
    + split; [by exists []|]. simpl. by apply suffix_cons_r.
Qed.

Lemma dispatch_reach choice input st :
  (∃ cs, (dispatch choice input st).1 = run cs st) ∧
  (dispatch choice input st).2 `suffix_of` input.
Proof.
  destruct choice; simpl.
  - apply add_race_loop_reach.
  - apply add_driver_loop_reach.
  - destruct input as [|rn input]; simpl.
    + split; [by exists []|done].
    + destruct (record_race_result_lines_reach (py_strip rn) input st)
        as [Hcs Hsuf].
      split; [done|by apply suffix_cons_r].
  - split; [by exists [DisplayPosition]|done].
  - split; [by exists [DisplayStandings]|done].
  - split; [by exists []|]. destruct input; [done|]. by apply suffix_cons_r.
  - split; [by exists []|]. destruct input; [done|]. by apply suffix_cons_r.
  - split; [by exists []|done].
  - split; [by exists []|done].
Qed.

Lemma main_loop_reach fuel input st :
  ∃ cs, registry_of (main_loop fuel input st) = run cs st.
Proof.
  revert input st. induction fuel as [|fuel IH]; intros input st;
    [by exists []|].
  simpl. destruct input as [|line input]; [apply IH|].
  destruct (py_int line ≫= Choice_of) as [choice|]; [|apply IH].
  destruct (dispatch_reach choice input st) as [[cs1 Hcs1] _].
  destruct (dispatch choice input st) as [st' input''] eqn:Hd.
  simpl in Hcs1. subst st'.
  destruct (IH input'' (run cs1 st)) as [cs Hcs].
  destruct choice; try (exists (cs1 ++ cs); by rewrite run_app).
  by exists [].
Qed.

(** X19.  Whatever is typed, the registry [main] holds after any number of
    rounds is one that a list of registrations, recordings and standings
    queries produces from the empty registry; so it is consistent and tidy,
    and all that holds for such sessions holds for the program. *)
Theorem main_loop_reaches fuel input :
  ∃ cs,
    registry_of (main_loop fuel input empty_registry) =
      run cs empty_registry ∧
    wf (registry_of (main_loop fuel input empty_registry)) ∧
    tidy (registry_of (main_loop fuel input empty_registry)).
Proof.
  destruct (main_loop_reach fuel input empty_registry) as [cs Hcs].
  exists cs. rewrite Hcs. split_and!; [done|apply wf_run|apply tidy_run].
Qed.




Lemma main_loop_no_input fuel st : main_loop fuel [] st = Running st [].
Proof. induction fuel as [|fuel IH]; [done|]. simpl. apply IH. Qed.

Lemma main_loop_decided_aux fuel :
  ∀ input st, (length input < fuel)%nat →
    (∃ st' rest, ∀ fuel', (fuel ≤ fuel')%nat →
       main_loop fuel' input st = Exited st' rest) ∨
    (∃ st', ∀ fuel', (fuel ≤ fuel')%nat →
       main_loop fuel' input st = Running st' []).
Proof.
  induction fuel as [|fuel IH]; intros input st Hlen; [lia|].
  destruct input as [|line input].
  { right. exists st. intros. apply main_loop_no_input. }
  simpl in Hlen.
  assert (Hnext : ∀ input'' st'',
    (length input'' ≤ length input)%nat →
    (∃ st' rest, ∀ fuel', (S fuel ≤ fuel')%nat →
       main_loop (pred fuel') input'' st'' = Exited st' rest) ∨
    (∃ st', ∀ fuel', (S fuel ≤ fuel')%nat →
       main_loop (pred fuel') input'' st'' = Running st' [])).
  { intros input'' st'' Hle.
    destruct (IH input'' st'') as [(st' & rest & H)|(st' & H)]; [lia|..].
    - left. exists st', rest. intros fuel' Hf. apply H. lia.
    - right. exists st'. intros fuel' Hf. apply H. lia. }
  assert (Hunfold : ∀ fuel', (S fuel ≤ fuel')%nat → fuel' = S (pred fuel'))
    by (intros; lia).
  destruct (py_int line ≫= Choice_of) as [choice|] eqn:Hc.
  - pose proof (dispatch_reach choice input st) as [_ Hsuf%suffix_length].
    destruct (dispatch choice input st) as [st'' input''] eqn:Hd.
    simpl in Hsuf.
    assert (choice = EXIT ∨ choice ≠ EXIT) as [->|Hne]
      by (destruct choice; (by left) || (by right)).
    + left. exists st, input. intros fuel' Hf.
      rewrite (Hunfold _ Hf). simpl. by rewrite Hc.
    + destruct (Hnext input'' st'' Hsuf) as [(st' & rest & H)|(st' & H)].
      * left. exists st', rest. intros fuel' Hf.
        rewrite (Hunfold _ Hf). simpl. rewrite Hc, Hd.
        destruct choice; try done; by apply H.
      * right. exists st'. intros fuel' Hf.
        rewrite (Hunfold _ Hf). simpl. rewrite Hc, Hd.
        destruct choice; try done; by apply H.
  - destruct (Hnext input st ltac:(lia)) as [(st' & rest & H)|(st' & H)].
    + left. exists st', rest. intros fuel' Hf.
      rewrite (Hunfold _ Hf). simpl. rewrite Hc. by apply H.
    + right. exists st'. intros fuel' Hf.
      rewrite (Hunfold _ Hf). simpl. rewrite Hc. by apply H.
Qed.

(** X21.  More rounds than input lines decide a run of [main]: either it
    has returned, with the same registry and unread lines for any larger
    number of rounds, or it has used up the input and goes round for ever
    (each further [input()] raises [EOFError], which the loop catches),
    holding one and the same registry. *)
Theorem main_loop_decided fuel input st :
  (length input < fuel)%nat →
  (∃ st' rest, ∀ fuel', (fuel ≤ fuel')%nat →
     main_loop fuel' input st = Exited st' rest) ∨
  (∃ st', ∀ fuel', (fuel ≤ fuel')%nat →
     main_loop fuel' input st = Running st' []).
Proof. apply main_loop_decided_aux. Qed.

Lemma main_loop_decided_witness :
  (∃ st' rest, ∀ fuel', (4 ≤ fuel')%nat →
     main_loop fuel' ["1"; "Monza"; "done"] empty_registry
       = Exited st' rest) ∨
  (∃ st', ∀ fuel', (4 ≤ fuel')%nat →
     main_loop fuel' ["1"; "Monza"; "done"] empty_registry
       = Running st' []).
Proof.
  apply (main_loop_decided 4 ["1"; "Monza"; "done"] empty_registry).
  simpl. lia.
Defined.

Example main_loop_spins_example :
  main_loop 100 ["1"; "Monza"; "done"] empty_registry =
  Running (run [AddRace "Monza"] empty_registry) [].
Proof. reflexivity. Qed.

(** ** The champion tables *)









Example lookup_examples :
  lookup_champion [(2021, "Max Verstappen")] " 2021 " =
    Printed "The drivers champion of 2021 was Max Verstappen." ∧
  lookup_constructors [(2021, "Mercedes")] "1999" =
    Printed "No information available for the year 1999." ∧
  lookup_champion [(2021, "Max Verstappen")] "last year" = Raised ValueError.
Proof. repeat split; reflexivity. Qed.

(** ** [finish_race] on several names *)

Lemma foldl_finish_race_perm names names' st :
  names ≡ₚ names' →
  foldl (λ st name, finish_race name st) st names =
  foldl (λ st name, finish_race name st) st names'.
Proof.
  intros Hperm. revert st.
  induction Hperm as [|n l l' _ IH|n1 n2 l|l1 l2 l3 _ IH1 _ IH2]; intros st.
  - done.
  - simpl. apply IH.
  - simpl. by rewrite finish_race_comm.
  - by rewrite IH1.
Qed.

(** X25.  The order in which race names are listed on the input line of
    [finish_race] does not matter: two lines whose stripped fields are
    rearrangements of one another give the same registry. *)
Theorem finish_race_input_any_order line line' input st :
  py_strip <$> py_split "," line ≡ₚ py_strip <$> py_split "," line' →
  finish_race_input (line :: input) st =
  finish_race_input (line' :: input) st.
Proof.
  intros Hperm. unfold finish_race_input. f_equal.
  assert (Hfmap : ∀ names st0,
    foldl (λ st name, finish_race (py_strip name) st) st0 names =
    foldl (λ st name, finish_race name st) st0 (py_strip <$> names)).
  { intros names. induction names as [|n names IH]; intros st0; [done|].
    simpl. apply IH. }
  rewrite !Hfmap. by apply foldl_finish_race_perm.
Qed.

Lemma finish_race_input_any_order_witness :
  finish_race_input ["R1, R2 ,R1"; "9"] (run scenario empty_registry) =
  finish_race_input [" R2,R1,R1"; "9"] (run scenario empty_registry).
Proof.
  apply (finish_race_input_any_order "R1, R2 ,R1" " R2,R1,R1" ["9"]
           (run scenario empty_registry)).
  vm_compute. apply perm_swap.
Defined.

(** ** What a registration stores *)

(** X26.  A registration with non-empty names stores a fresh driver (zero
    points, no position) under the driver name, on the team stored under
    the team name, and puts it last on that team's roster.  A team of that
    name is reused if there is one; otherwise a team with zero points is
    created for it.  Entries under other names, the existing driver
    objects, the other team objects, every team's points and the races are
    as before. *)
Theorem add_driver_registers name tname st :
  wf st → name ≠ "" → tname ≠ "" →
  let st' := (add_driver name tname st).1 in
  let r := length (driver_heap st) in
  ∃ t T,
    dict_get name (drivers_dict st') = Some r ∧
    dict_get tname (teams_dict st') = Some t ∧
    driver_heap st' !! r = Some (mkDriver name t 0 None) ∧
    team_heap st' !! t = Some T ∧
    team_name T = tname ∧
    last (team_drivers T) = Some r ∧
    (∀ name', name' ≠ name →
       dict_get name' (drivers_dict st') = dict_get name' (drivers_dict st)) ∧
    (∀ tname', tname' ≠ tname →
       dict_get tname' (teams_dict st') = dict_get tname' (teams_dict st)) ∧
    (∀ r' d, driver_heap st !! r' = Some d → driver_heap st' !! r' = Some d) ∧
    (∀ t' T', team_heap st !! t' = Some T' → t' ≠ t →
       team_heap st' !! t' = Some T') ∧
    (∀ t', points_of_team st' t' = points_of_team st t') ∧
    race_dict st' = race_dict st ∧
    match dict_get tname (teams_dict st) with
    | Some t0 =>
        t = t0 ∧ teams_dict st' = teams_dict st ∧
        ∃ T0, team_heap st !! t = Some T0 ∧
              T = mkTeam (team_name T0) (team_points T0)
                    (team_drivers T0 ++ [r])
    | None => t = length (team_heap st) ∧ T = mkTeam tname 0 [r]
    end.
Proof.
  intros Hwf Hname Htname st' r. subst st'. rewrite add_driver_cases.
  rewrite !bool_decide_eq_false_2 by done. cbn [orb].
  destruct (dict_get tname (teams_dict st)) as [t|] eqn:Hg; cbn [fst].
  - destruct (wf_teams _ Hwf _ _ Hg) as (T0 & HT0 & Hn0).
    exists t, (append_team_driver r T0). simpl. split_and!; try done.
    + by rewrite dict_get_set_eq.
    + by apply list_lookup_middle.
    + by rewrite list_lookup_alter_eq, HT0.
    + by rewrite last_snoc.
    + intros name' Hne. by rewrite dict_get_set_ne.
    + intros r' d Hd. by apply lookup_app_l_Some.
    + intros t' T' HT' Hne. by rewrite list_lookup_alter_ne.
    + intros t'. by rewrite registered_points_of_team.
    + by exists T0.
  - set (t := length (team_heap st)).
    assert (HT : alter (append_team_driver r) t
                   (team_heap st ++ [new_Team tname]) !! t
                 = Some (mkTeam tname 0 [r])).
    { rewrite list_lookup_alter_eq, list_lookup_middle by done. done. }
    exists t, (mkTeam tname 0 [r]). simpl. split_and!; try done.
    + by rewrite dict_get_set_eq.
    + by rewrite dict_get_set_eq.
    + by apply list_lookup_middle.
    + intros name' Hne. by rewrite dict_get_set_ne.
    + intros tname' Hne. by rewrite dict_get_set_ne.
    + intros r' d Hd. by apply lookup_app_l_Some.
    + intros t' T' HT' Hne. rewrite list_lookup_alter_ne by done.
      by apply lookup_app_l_Some.
    + intros t'. rewrite registered_points_of_team. unfold points_of_team.
      destruct (team_heap st !! t') as [T'|] eqn:HT'.
      * by rewrite (lookup_app_l_Some _ _ _ T').
      * apply lookup_ge_None in HT'.
        destruct ((team_heap st ++ [new_Team tname]) !! t') as [T'|] eqn:HT'';
          [|done].
        apply lookup_snoc_Some in HT'' as [[Hlt _]|[_ <-]]; [lia|done].
Qed.

Lemma add_driver_registers_witness :
  ∃ t T,
    dict_get "C" (drivers_dict (add_driver "C" "T2" grid).1) = Some 2%nat ∧
    dict_get "T2" (teams_dict (add_driver "C" "T2" grid).1) = Some t ∧
    driver_heap (add_driver "C" "T2" grid).1 !! 2%nat
      = Some (mkDriver "C" t 0 None) ∧
    team_heap (add_driver "C" "T2" grid).1 !! t = Some T ∧
    team_name T = "T2" ∧ last (team_drivers T) = Some 2%nat.
Proof.
  destruct (add_driver_registers "C" "T2" grid wf_grid)
    as (t & T & H1 & H2 & H3 & H4 & H5 & H6 & _); [done|done|].
  exists t, T. by split_and!.
Defined.

(** ** Tie order of teams *)

Lemma step_teams_keys c st :
  dict_keys (teams_dict (step c st)) =
  foldl note_name (dict_keys (teams_dict st)) (registered_team c).
Proof.
  destruct c as [name|name tn|rn dn pos| |]; cbn [step registered_team].
  - unfold add_race. by case_bool_decide.
  - rewrite add_driver_cases.
    destruct (_ || _); [done|].
    destruct (dict_get tn (teams_dict st)) as [t|] eqn:Hg; simpl.
    + unfold note_name. rewrite decide_True; [done|].
      apply dict_get_elem, (list_elem_of_fmap_2 fst) in Hg. done.
    + rewrite dict_keys_set, Hg. unfold note_name.
      apply dict_get_None in Hg. by rewrite decide_False.
  - rewrite record_race_result_cases.
    destruct (py_int pos) as [p|]; [|done].
    destruct (p <? 1); [done|].
    destruct (dict_get rn (race_dict st)) as [race|]; [|done].
    destruct (dict_get dn (drivers_dict st)) as [r0|]; [|done].
    by destruct (driver_heap st !! r0).
  - done.
  - done.
Qed.

Lemma run_teams_keys cs :
  dict_keys (teams_dict (run cs empty_registry)) = team_order cs.
Proof.
  unfold team_order.
  induction cs as [|c cs IH] using rev_ind; [done|].
  by rewrite run_snoc, step_teams_keys, IH, bind_app, foldl_app,
    bind_singleton.
Qed.

Lemma wf_teams_names st :
  wf st →
  name_of_team st <$> dict_values (teams_dict st) =
  Some <$> dict_keys (teams_dict st).
Proof.
  intros Hwf. pose proof (wf_teams_keys _ Hwf) as Hk.
  assert (Hall : ∀ k t, (k, t) ∈ teams_dict st → name_of_team st t = Some k).
  { intros k t Hin%(elem_dict_get _ _ _ Hk).
    destruct (wf_teams _ Hwf _ _ Hin) as (T & HT & <-).
    unfold name_of_team. by rewrite HT. }
  clear Hk. unfold dict_values, dict_keys.
  induction (teams_dict st) as [|[k t] l IH]; [done|].
  rewrite !fmap_cons. simpl. rewrite (Hall k t) by left.
  f_equal. apply IH. intros; apply Hall; by right.
Qed.

(** X27.  Teams with equal points are listed in the order of [teams_dict],
    and read by name that is the order in which the team names were first
    used in a registration. *)
Theorem team_standings_ties (cs : list command) :
  let st := run cs empty_registry in
  let out := (display_team_standings st).2 in
  (∀ p, filter (λ t, points_of_team st t = p) out.*2 =
        filter (λ t, points_of_team st t = p)
          (dict_values (teams_dict st))) ∧
  name_of_team st <$> dict_values (teams_dict st) = Some <$> team_order cs.
Proof.
  intros st out. split.
  - intros p. subst out. unfold display_team_standings. cbn [snd].
    rewrite enumerate_snd. apply sorted_desc_stable.
  - subst st. rewrite <- run_teams_keys. apply wf_teams_names, wf_run.
Qed.

Lemma team_standings_ties_witness :
  filter (λ t, points_of_team (run scenario empty_registry) t = 18)
    (display_team_standings (run scenario empty_registry)).2.*2
    = [1%nat] ∧
  name_of_team (run scenario empty_registry) <$> [0%nat; 1%nat] =
    [Some "T1"; Some "T2"].
Proof.
  destruct (team_standings_ties scenario) as [Hties Hnames].
  split; [exact (Hties 18)|exact Hnames].
Defined.
